(** * Intrusive reference-counted handles: [intrusive_ptr] and
      [weak_intrusive_ptr]

    A shallow embedding of [intrusive_ptr.hpp] and [weak_intrusive_ptr.hpp].
    A raw pointer [T*] is an optional address, a handle is a record with the
    single field [ptr_], and every member function is a state transformer
    over the world in which the managed objects live.  The five counting
    primitives the handles call ([intrusive_ptr_add_ref] and friends) are
    declared in [ref_counted.hpp]; the handles are generic over them, as the
    templates are, and one instance follows the contract of the
    specification. *)

From stdpp Require Import gmap list.
From Stdlib Require Import ZArith Lia.

Local Open Scope Z_scope.

(** ** Raw pointers *)

Definition addr := positive.

(** [T*]: [None] is [nullptr]. *)
Definition pointer := option addr.

Definition nullptr : pointer := None.

(** Contextual conversion of a pointer to [bool]. *)
Definition to_bool (p : pointer) : bool :=
  match p with Some _ => true | None => false end.

(** Address comparison [a == b] on raw pointers. *)
Definition ptr_eqb (a b : pointer) : bool := bool_decide (a = b).

(** Identifier of a class of the managed hierarchy. *)
Definition class_id := nat.

(** ** State passing *)

Definition M (W A : Type) : Type := W -> A * W.

Definition ret {W A} (a : A) : M W A := fun w => (a, w).

Definition bind {W A B} (m : M W A) (k : A -> M W B) : M W B :=
  fun w => let (a, w') := m w in k a w'.

Notation "'let*' x ':=' m 'in' k" := (bind m (fun x => k))
  (at level 10, x name, m at level 100, k at level 200).
Notation "'run' m 'then' k" := (bind m (fun _ => k))
  (at level 10, m at level 100, k at level 200).

(** ** The interface a managed type supplies

    The free functions found by argument type, under the names the handles
    call them by, and the run-time type test behind [dynamic_cast]. *)

Class ManagedType (W : Type) := {
  intrusive_ptr_add_ref : addr -> M W unit;
  intrusive_ptr_release : addr -> M W unit;
  intrusive_ptr_add_weak_ref : addr -> M W unit;
  intrusive_ptr_release_weak : addr -> M W unit;
  intrusive_ptr_upgrade_weak : addr -> M W bool;
  instance_of : class_id -> addr -> W -> bool
}.

(** [dynamic_cast<C*>(p)] on a non-null [p]: [p] itself when the object is
    a [C], [nullptr] otherwise.  Address adjustments of multiple
    inheritance are not modelled. *)
Definition dynamic_cast {W} `{ManagedType W} (C : class_id) (p : addr)
  : M W pointer :=
  fun w => (if instance_of C p w then Some p else nullptr, w).

(** [static_cast<C*>(p)]: the same address. *)
Definition static_cast (C : class_id) (p : addr) : pointer := Some p.

(** ** [intrusive_ptr<T>] *)

Module Strong.

Record intrusive_ptr := { ptr_ : pointer }.

Section Methods.
Context {W : Type} `{ManagedType W}.

(** [constexpr intrusive_ptr() : ptr_(nullptr)] *)
Definition null : intrusive_ptr := {| ptr_ := nullptr |}.

(** [set_ptr(raw_ptr, add_ref)]; the result is the new [*this]. *)
Definition set_ptr (raw_ptr : pointer) (add_ref : bool)
  : M W intrusive_ptr :=
  let this := {| ptr_ := raw_ptr |} in
  match raw_ptr with
  | Some p =>
      if add_ref then run intrusive_ptr_add_ref p then ret this
      else ret this
  | None => ret this
  end.

(** [intrusive_ptr(pointer raw_ptr, bool add_ref = true)] *)
Definition ctor (raw_ptr : pointer) (add_ref : bool) : M W intrusive_ptr :=
  set_ptr raw_ptr add_ref.

(** [get()] *)
Definition get (this : intrusive_ptr) : pointer := ptr_ this.

(** [detach()]: the returned pointer and the new [*this]. *)
Definition detach (this : intrusive_ptr) : M W (pointer * intrusive_ptr) :=
  let result := ptr_ this in
  if to_bool result then ret (result, {| ptr_ := nullptr |})
  else ret (result, this).

(** [release()] *)
Definition release (this : intrusive_ptr)
  : M W (pointer * intrusive_ptr) :=
  detach this.

(** [intrusive_ptr(intrusive_ptr&& other) : ptr_(other.detach())]: the
    new handle and what is left of [other]. *)
Definition move_ctor (other : intrusive_ptr)
  : M W (intrusive_ptr * intrusive_ptr) :=
  let* r := detach other in ret ({| ptr_ := fst r |}, snd r).

(** [intrusive_ptr(const intrusive_ptr& other)] *)
Definition copy_ctor (other : intrusive_ptr) : M W intrusive_ptr :=
  set_ptr (get other) true.

(** [~intrusive_ptr()] *)
Definition dtor (this : intrusive_ptr) : M W unit :=
  match ptr_ this with
  | Some p => intrusive_ptr_release p
  | None => ret tt
  end.

(** [reset(new_value, add_ref)] *)
Definition reset (this : intrusive_ptr) (new_value : pointer)
    (add_ref : bool) : M W intrusive_ptr :=
  let old := ptr_ this in
  let* this' := set_ptr new_value add_ref in
  match old with
  | Some p => run intrusive_ptr_release p then ret this'
  | None => ret this'
  end.

(** [operator=(pointer ptr)] *)
Definition assign_raw (this : intrusive_ptr) (ptr : pointer)
  : M W intrusive_ptr :=
  reset this ptr true.

(** [explicit operator bool()] *)
Definition operator_bool (this : intrusive_ptr) : bool :=
  negb (ptr_eqb (ptr_ this) nullptr).

(** [swap(other)]: the new [*this] and the new [other]. *)
Definition swap (this other : intrusive_ptr)
  : intrusive_ptr * intrusive_ptr :=
  ({| ptr_ := ptr_ other |}, {| ptr_ := ptr_ this |}).

(** [operator=(intrusive_ptr other)] once the by-value parameter
    [other] exists: the swap, then the parameter's destructor at the end
    of the call. *)
Definition assign_value (this other : intrusive_ptr) : M W intrusive_ptr :=
  let (this', other') := swap this other in
  run dtor other' then ret this'.

(** [h = s] for an lvalue [s]: the parameter is copy-constructed from
    [s] first. *)
Definition assign (this s : intrusive_ptr) : M W intrusive_ptr :=
  let* other := copy_ctor s in assign_value this other.

(** [down_pointer_cast<C>()]; the raw result converts to
    [intrusive_ptr<C>] through the constructor with its default
    [add_ref = true]. *)
Definition down_pointer_cast (C : class_id) (this : intrusive_ptr)
  : M W intrusive_ptr :=
  let* raw := match ptr_ this with
              | Some p => dynamic_cast C p
              | None => ret nullptr
              end in
  ctor raw true.

(** [up_pointer_cast<C>()], converted the same way. *)
Definition up_pointer_cast (C : class_id) (this : intrusive_ptr)
  : M W intrusive_ptr :=
  let raw := match ptr_ this with
             | Some p => static_cast C p
             | None => nullptr
             end in
  ctor raw true.

(** Comparisons with [nullptr], with a raw pointer and between
    handles. *)
Definition eq_null (x : intrusive_ptr) : bool := negb (operator_bool x).
Definition ne_null (x : intrusive_ptr) : bool := operator_bool x.
Definition eq_handle (a b : intrusive_ptr) : bool :=
  ptr_eqb (get a) (get b).
Definition ne_handle (a b : intrusive_ptr) : bool := negb (eq_handle a b).
Definition eq_raw (a : intrusive_ptr) (b : pointer) : bool :=
  ptr_eqb (get a) b.
Definition ne_raw (a : intrusive_ptr) (b : pointer) : bool :=
  negb (ptr_eqb (get a) b).

(** [operator->()] *)
Definition operator_arrow (this : intrusive_ptr) : pointer := ptr_ this.

(** [template<class Y> intrusive_ptr(intrusive_ptr<Y> other) :
    ptr_(other.detach())] on its by-value parameter, which is destroyed
    when the constructor has returned. *)
Definition convert_ctor_value (other : intrusive_ptr) : M W intrusive_ptr :=
  let* r := detach other in
  run dtor (snd r) then ret {| ptr_ := fst r |}.

(** The converting constructor applied to an lvalue [s]: the parameter
    is copy-constructed. *)
Definition convert_copy (s : intrusive_ptr) : M W intrusive_ptr :=
  let* other := copy_ctor s in convert_ctor_value other.

(** The converting constructor applied to [std::move(s)]: the parameter
    is move-constructed; the result and what is left of [s]. *)
Definition convert_move (s : intrusive_ptr)
  : M W (intrusive_ptr * intrusive_ptr) :=
  let* r := move_ctor s in
  let* this := convert_ctor_value (fst r) in
  ret (this, snd r).

(** [h = std::move(s)]: the parameter of [operator=] is move-constructed
    from [s]; the new [h] and what is left of [s]. *)
Definition assign_move (this s : intrusive_ptr)
  : M W (intrusive_ptr * intrusive_ptr) :=
  let* r := move_ctor s in
  let* this' := assign_value this (fst r) in
  ret (this', snd r).

(** [operator==(nullptr_t, x)], [operator!=(nullptr_t, x)],
    [operator==(T* a, b)] and [operator!=(T* a, b)]. *)
Definition null_eq (x : intrusive_ptr) : bool := negb (operator_bool x).
Definition null_ne (x : intrusive_ptr) : bool := operator_bool x.
Definition raw_eq (a : pointer) (b : intrusive_ptr) : bool :=
  ptr_eqb a (get b).
Definition raw_ne (a : pointer) (b : intrusive_ptr) : bool :=
  negb (ptr_eqb a (get b)).

(** The free functions [swap(a, b)], [get_pointer(p)],
    [static_pointer_cast<T>(r)] and [dynamic_pointer_cast<T>(r)]. *)
Definition swap_free (a b : intrusive_ptr) : intrusive_ptr * intrusive_ptr :=
  swap a b.
Definition get_pointer (p : intrusive_ptr) : pointer := get p.
Definition static_pointer_cast (T : class_id) (r : intrusive_ptr)
  : M W intrusive_ptr :=
  up_pointer_cast T r.
Definition dynamic_pointer_cast (T : class_id) (r : intrusive_ptr)
  : M W intrusive_ptr :=
  down_pointer_cast T r.
End Methods.

End Strong.

(** ** [weak_intrusive_ptr<T>] *)

Module Weak.

Record weak_intrusive_ptr := { ptr_ : pointer }.

Section Methods.
Context {W : Type} `{ManagedType W}.

(** [constexpr weak_intrusive_ptr() : ptr_(nullptr)] *)
Definition null : weak_intrusive_ptr := {| ptr_ := nullptr |}.

(** [set_ptr(raw_ptr, add_ref)] *)
Definition set_ptr (raw_ptr : pointer) (add_ref : bool)
  : M W weak_intrusive_ptr :=
  let this := {| ptr_ := raw_ptr |} in
  match raw_ptr with
  | Some p =>
      if add_ref then run intrusive_ptr_add_weak_ref p then ret this
      else ret this
  | None => ret this
  end.

(** [weak_intrusive_ptr(pointer raw_ptr, bool add_ref = true)] *)
Definition ctor (raw_ptr : pointer) (add_ref : bool)
  : M W weak_intrusive_ptr :=
  set_ptr raw_ptr add_ref.

(** [get()] *)
Definition get (this : weak_intrusive_ptr) : pointer := ptr_ this.

(** [detach()] *)
Definition detach (this : weak_intrusive_ptr)
  : M W (pointer * weak_intrusive_ptr) :=
  let result := ptr_ this in
  if to_bool result then ret (result, {| ptr_ := nullptr |})
  else ret (result, this).

(** [release()] *)
Definition release (this : weak_intrusive_ptr)
  : M W (pointer * weak_intrusive_ptr) :=
  detach this.

(** [weak_intrusive_ptr(weak_intrusive_ptr&& other)] *)
Definition move_ctor (other : weak_intrusive_ptr)
  : M W (weak_intrusive_ptr * weak_intrusive_ptr) :=
  let* r := detach other in ret ({| ptr_ := fst r |}, snd r).

(** [weak_intrusive_ptr(const weak_intrusive_ptr& other)] *)
Definition copy_ctor (other : weak_intrusive_ptr)
  : M W weak_intrusive_ptr :=
  set_ptr (get other) true.

(** [~weak_intrusive_ptr()] *)
Definition dtor (this : weak_intrusive_ptr) : M W unit :=
  match ptr_ this with
  | Some p => intrusive_ptr_release_weak p
  | None => ret tt
  end.

(** [swap(other)] *)
Definition swap (this other : weak_intrusive_ptr)
  : weak_intrusive_ptr * weak_intrusive_ptr :=
  ({| ptr_ := ptr_ other |}, {| ptr_ := ptr_ this |}).

(** [reset(new_value, add_ref)] *)
Definition reset (this : weak_intrusive_ptr) (new_value : pointer)
    (add_ref : bool) : M W weak_intrusive_ptr :=
  let old := ptr_ this in
  let* this' := set_ptr new_value add_ref in
  match old with
  | Some p => run intrusive_ptr_release_weak p then ret this'
  | None => ret this'
  end.

(** [operator=(pointer ptr)] *)
Definition assign_raw (this : weak_intrusive_ptr) (ptr : pointer)
  : M W weak_intrusive_ptr :=
  reset this ptr true.

(** [operator=(weak_intrusive_ptr other)] on the by-value parameter. *)
Definition assign_value (this other : weak_intrusive_ptr)
  : M W weak_intrusive_ptr :=
  let (this', other') := swap this other in
  run dtor other' then ret this'.

(** [operator!()] *)
Definition operator_not (this : weak_intrusive_ptr) : bool :=
  negb (to_bool (ptr_ this)).

(** [explicit operator bool()] *)
Definition operator_bool (this : weak_intrusive_ptr) : bool :=
  to_bool (ptr_ this).

(** [lock()].  [return nullptr] builds the result through the strong
    handle's constructor with its default [add_ref = true];
    [return {ptr_, false}] passes [add_ref = false]. *)
Definition lock (this : weak_intrusive_ptr) : M W Strong.intrusive_ptr :=
  match ptr_ this with
  | None => Strong.ctor nullptr true
  | Some p =>
      let* upgraded := intrusive_ptr_upgrade_weak p in
      if negb upgraded then Strong.ctor nullptr true
      else Strong.ctor (ptr_ this) false
  end.

(** [get_locked()] *)
Definition get_locked (this : weak_intrusive_ptr) : M W pointer :=
  match ptr_ this with
  | None => ret nullptr
  | Some p =>
      let* upgraded := intrusive_ptr_upgrade_weak p in
      if negb upgraded then ret nullptr else ret (ptr_ this)
  end.

(** [operator==] and [operator!=] between weak handles. *)
Definition eq_handle (lhs rhs : weak_intrusive_ptr) : bool :=
  ptr_eqb (get lhs) (get rhs).
Definition ne_handle (lhs rhs : weak_intrusive_ptr) : bool :=
  negb (eq_handle lhs rhs).

(** [operator->()] *)
Definition operator_arrow (this : weak_intrusive_ptr) : pointer := ptr_ this.

(** [h = s] for an lvalue [s]: the parameter of [operator=] is
    copy-constructed from [s]. *)
Definition assign (this s : weak_intrusive_ptr) : M W weak_intrusive_ptr :=
  let* other := copy_ctor s in assign_value this other.

(** [h = std::move(s)]: the parameter is move-constructed from [s]. *)
Definition assign_move (this s : weak_intrusive_ptr)
  : M W (weak_intrusive_ptr * weak_intrusive_ptr) :=
  let* r := move_ctor s in
  let* this' := assign_value this (fst r) in
  ret (this', snd r).

(** [template<class Y> weak_intrusive_ptr(weak_intrusive_ptr<Y> other) :
    ptr_(other.detach())] on its by-value parameter. *)
Definition convert_ctor_value (other : weak_intrusive_ptr)
  : M W weak_intrusive_ptr :=
  let* r := detach other in
  run dtor (snd r) then ret {| ptr_ := fst r |}.

(** The converting constructor applied to an lvalue [s]. *)
Definition convert_copy (s : weak_intrusive_ptr) : M W weak_intrusive_ptr :=
  let* other := copy_ctor s in convert_ctor_value other.
End Methods.

End Weak.

(** ** The counted object and its primitives *)

(** The state of one managed object: its two counts, how often its
    finalizer has run, how often its storage has been reclaimed, and the
    classes its dynamic type is or derives from. *)
Record counted := {
  strong_count : Z;
  weak_count : Z;
  finalized : nat;
  reclaimed : nat;
  classes : list class_id
}.

(** A call of a counting primitive. *)
Inductive call :=
| AddStrong (p : addr)
| ReleaseStrong (p : addr)
| AddWeak (p : addr)
| ReleaseWeak (p : addr)
| TryUpgrade (p : addr).

(** The world: the objects by address and the primitive calls so far, in
    order. *)
Record world := { heap : gmap addr counted; calls : list call }.

(** An object as the factory hands it out: [strong_count = 1],
    [weak_count = 0], neither finalized nor reclaimed. *)
Definition fresh (cs : list class_id) : counted :=
  {| strong_count := 1; weak_count := 0; finalized := 0%nat;
     reclaimed := 0%nat; classes := cs |}.

Definition inc_strong (o : counted) : counted :=
  {| strong_count := strong_count o + 1; weak_count := weak_count o;
     finalized := finalized o; reclaimed := reclaimed o;
     classes := classes o |}.

Definition dec_strong (o : counted) : counted :=
  let n := strong_count o - 1 in
  {| strong_count := n; weak_count := weak_count o;
     finalized := if n =? 0 then S (finalized o) else finalized o;
     reclaimed := reclaimed o; classes := classes o |}.

Definition inc_weak (o : counted) : counted :=
  {| strong_count := strong_count o; weak_count := weak_count o + 1;
     finalized := finalized o; reclaimed := reclaimed o;
     classes := classes o |}.

Definition dec_weak (o : counted) : counted :=
  let n := weak_count o - 1 in
  {| strong_count := strong_count o; weak_count := n;
     finalized := finalized o;
     reclaimed := if (n =? 0) && (0 <? finalized o)%nat
                  then S (reclaimed o) else reclaimed o;
     classes := classes o |}.

(** One primitive call: the object at [p] is updated by [f] (an address
    that holds no object is left alone: the contract gives such a call no
    meaning) and the call is recorded. *)
Definition primitive (c : call) (f : counted -> counted) (p : addr)
  : M world unit :=
  fun w => (tt, {| heap := alter f p (heap w); calls := calls w ++ [c] |}).

(** Modelled from the spec: [ref_counted.hpp] is not among the sources.
    "add_strong_ref(obj): increments strong_count". *)
Definition add_strong_ref (p : addr) : M world unit :=
  primitive (AddStrong p) inc_strong p.

(** Modelled from the spec: [ref_counted.hpp] is not among the sources.
    "release_strong_ref(obj): decrements strong_count; if the result is 0,
    runs the object's finalizer exactly once". *)
Definition release_strong_ref (p : addr) : M world unit :=
  primitive (ReleaseStrong p) dec_strong p.

(** Modelled from the spec: [ref_counted.hpp] is not among the sources.
    "add_weak_ref(obj): increments weak_count". *)
Definition add_weak_ref (p : addr) : M world unit :=
  primitive (AddWeak p) inc_weak p.

(** Modelled from the spec: [ref_counted.hpp] is not among the sources.
    "release_weak_ref(obj): decrements weak_count; if the result is 0 and
    the object has already been finalized, reclaims storage". *)
Definition release_weak_ref (p : addr) : M world unit :=
  primitive (ReleaseWeak p) dec_weak p.

(** Modelled from the spec: [ref_counted.hpp] is not among the sources.
    "try_upgrade_weak(obj) -> bool": an atomic increment of strong_count
    "conditioned on strong_count > 0 at the moment of increment"; it fails
    when "the object's strong count had already reached zero". *)
Definition try_upgrade_weak (p : addr) : M world bool :=
  fun w =>
    let alive := match heap w !! p with
                 | Some o => 0 <? strong_count o
                 | None => false
                 end in
    (alive,
     {| heap := if alive then alter inc_strong p (heap w) else heap w;
        calls := calls w ++ [TryUpgrade p] |}).

(** The run-time type test: the class is among those of the object. *)
Definition has_class (C : class_id) (p : addr) (w : world) : bool :=
  match heap w !! p with
  | Some o => bool_decide (C ∈ classes o)
  | None => false
  end.

#[export] Instance spec_managed : ManagedType world := {
  intrusive_ptr_add_ref := add_strong_ref;
  intrusive_ptr_release := release_strong_ref;
  intrusive_ptr_add_weak_ref := add_weak_ref;
  intrusive_ptr_release_weak := release_weak_ref;
  intrusive_ptr_upgrade_weak := try_upgrade_weak;
  instance_of := has_class
}.

(** Observations of one object. *)
Definition strong_at (p : addr) (w : world) : option Z :=
  strong_count <$> heap w !! p.
Definition weak_at (p : addr) (w : world) : option Z :=
  weak_count <$> heap w !! p.
Definition finalized_at (p : addr) (w : world) : option nat :=
  finalized <$> heap w !! p.
Definition reclaimed_at (p : addr) (w : world) : option nat :=
  reclaimed <$> heap w !! p.

(** ** The life of one object, step by step

    The factory's handle [A] adopts the one reference the object is created
    with; [B] is a copy of [A]; [W] is a weak handle on the same object;
    then [A] and [B] are destroyed, [W.lock()] is tried and [W] is
    destroyed.  The object is observed after every step. *)

Definition observation : Type := option Z * option Z * option nat * option nat.

Definition observe (p : addr) : M world observation :=
  fun w => ((strong_at p w, weak_at p w, finalized_at p w, reclaimed_at p w),
            w).

Definition lifecycle (p : addr) : M world (list observation * pointer) :=
  let* a := Strong.ctor (Some p) false in
  let* o0 := observe p in
  let* b := Strong.copy_ctor a in
  let* o1 := observe p in
  let* wk := Weak.ctor (Strong.get a) true in
  let* o2 := observe p in
  run Strong.dtor a then
  let* o3 := observe p in
  run Strong.dtor b then
  let* o4 := observe p in
  let* locked := Weak.lock wk in
  let* o5 := observe p in
  run Strong.dtor locked then
  run Weak.dtor wk then
  let* o6 := observe p in
  ret ([o0; o1; o2; o3; o4; o5; o6], Strong.get locked).

(** ** [lock()] against the destructor of a strong handle

    Two threads share the world.  Each runs its member function one step
    at a time; a call of a primitive is one step, atomic as the contract of
    the primitives requires, and the tests around it are steps of their
    own.  A schedule names the thread that moves next. *)

Module Race.

(** Where the thread in [lock()] stands. *)
Inductive locker :=
| LockEntry (this : Weak.weak_intrusive_ptr)
| LockCall (this : Weak.weak_intrusive_ptr) (p : addr)
| LockTested (this : Weak.weak_intrusive_ptr) (upgraded : bool)
| LockReturned (result : Strong.intrusive_ptr).

(** Where the thread in [~intrusive_ptr()] stands. *)
Inductive dropper :=
| DropEntry (this : Strong.intrusive_ptr)
| DropCall (p : addr)
| DropReturned.

Inductive thread := Locker | Dropper.

Section Threads.
Context {W : Type} `{ManagedType W}.

Record config := {
  lock_thread : locker;
  drop_thread : dropper;
  shared : W
}.

(** [if (!ptr_ || !intrusive_ptr_upgrade_weak(ptr_)) return nullptr;
    return {ptr_, false};] *)
Definition step_lock (l : locker) (w : W) : option (locker * W) :=
  match l with
  | LockEntry this =>
      match Weak.ptr_ this with
      | None =>
          let (result, w') := Strong.ctor nullptr true w in
          Some (LockReturned result, w')
      | Some p => Some (LockCall this p, w)
      end
  | LockCall this p =>
      let (upgraded, w') := intrusive_ptr_upgrade_weak p w in
      Some (LockTested this upgraded, w')
  | LockTested this upgraded =>
      let (result, w') :=
        (if negb upgraded then Strong.ctor nullptr true
         else Strong.ctor (Weak.ptr_ this) false) w in
      Some (LockReturned result, w')
  | LockReturned _ => None
  end.

(** [if (ptr_) { intrusive_ptr_release(ptr_); }] *)
Definition step_drop (d : dropper) (w : W) : option (dropper * W) :=
  match d with
  | DropEntry this =>
      match Strong.ptr_ this with
      | Some p => Some (DropCall p, w)
      | None => Some (DropReturned, w)
      end
  | DropCall p =>
      let (_, w') := intrusive_ptr_release p w in Some (DropReturned, w')
  | DropReturned => None
  end.

(** One step of the scheduled thread; [None] when it has returned. *)
Definition step (t : thread) (c : config) : option config :=
  match t with
  | Locker =>
      match step_lock (lock_thread c) (shared c) with
      | Some (l, w) =>
          Some {| lock_thread := l; drop_thread := drop_thread c;
                  shared := w |}
      | None => None
      end
  | Dropper =>
      match step_drop (drop_thread c) (shared c) with
      | Some (d, w) =>
          Some {| lock_thread := lock_thread c; drop_thread := d;
                  shared := w |}
      | None => None
      end
  end.

Fixpoint exec (schedule : list thread) (c : config) : option config :=
  match schedule with
  | [] => Some c
  | t :: rest =>
      match step t c with
      | Some c' => exec rest c'
      | None => None
      end
  end.

Definition start (wk : Weak.weak_intrusive_ptr) (b : Strong.intrusive_ptr)
    (w : W) : config :=
  {| lock_thread := LockEntry wk; drop_thread := DropEntry b; shared := w |}.

(** Both threads have returned. *)
Definition finished (c : config) : bool :=
  match lock_thread c, drop_thread c with
  | LockReturned _, DropReturned => true
  | _, _ => false
  end.

(** What [lock()] returned, once it has. *)
Definition lock_result (c : config) : option Strong.intrusive_ptr :=
  match lock_thread c with
  | LockReturned result => Some result
  | _ => None
  end.
End Threads.

End Race.

(** ** A small world to run the handles in

    One object of class [1] derived from class [0], at address [1], as the
    factory leaves it. *)

Definition base_class : class_id := 0%nat.
Definition derived_class : class_id := 1%nat.
Definition other_class : class_id := 2%nat.

Definition the_object : addr := 1%positive.

Definition small_world : world :=
  {| heap := {[ the_object := fresh [derived_class; base_class] ]};
     calls := [] |}.

Definition owner : Strong.intrusive_ptr :=
  {| Strong.ptr_ := Some the_object |}.

Definition observer : Weak.weak_intrusive_ptr :=
  {| Weak.ptr_ := Some the_object |}.

(** The same object with one strong and one weak handle on it. *)
Definition watched : counted :=
  {| strong_count := 1; weak_count := 1; finalized := 0%nat;
     reclaimed := 0%nat; classes := [derived_class; base_class] |}.

Definition watched_world : world :=
  {| heap := {[ the_object := watched ]}; calls := [] |}.

(** The same object once its last strong handle is gone and one weak
    handle remains. *)
Definition finalized_world : world :=
  {| heap := {[ the_object :=
                 {| strong_count := 0; weak_count := 1; finalized := 1%nat;
                    reclaimed := 0%nat;
                    classes := [derived_class; base_class] |} ]};
     calls := [] |}.

(** ** Programs over handles

    A program state holds the strong and the weak handles that exist, in
    two lists, and the world.  An operation names the handles it works on
    by position and runs the member function of the source on them; the
    handle a constructor makes is appended, a destroyed handle leaves its
    list.  Raw pointers do not outlive an operation here: [detach],
    [get_locked] and the [add_ref = false] constructors, which hand a
    reference to the caller, are left out. *)

Module Program.

Record machine := {
  strongs : list Strong.intrusive_ptr;
  weaks : list Weak.weak_intrusive_ptr;
  mem : world
}.

Inductive op :=
| SDefault
| SCopy (i : nat)
| SMove (i : nat)
| SConvert (i : nat)
| SDestroy (i : nat)
| SReset (i j : nat)
| SClear (i : nat)
| SAssign (i j : nat)
| SMoveAssign (i j : nat)
| SSwap (i j : nat)
| SUpcast (C : class_id) (i : nat)
| SDowncast (C : class_id) (i : nat)
| WDefault
| WFrom (i : nat)
| WCopy (k : nat)
| WMove (k : nat)
| WDestroy (k : nat)
| WReset (k l : nat)
| WClear (k : nat)
| WAssign (k l : nat)
| WMoveAssign (k l : nat)
| WSwap (k l : nat)
| WLock (k : nat).

(** One operation; [None] when it names a handle that does not exist. *)
Definition step (o : op) (m : machine) : option machine :=
  let hs := strongs m in
  let ws := weaks m in
  match o with
  | SDefault =>
      Some {| strongs := hs ++ [Strong.null]; weaks := ws; mem := mem m |}
  | SCopy i =>
      h ← hs !! i;
      let '(h', w) := Strong.copy_ctor h (mem m) in
      Some {| strongs := hs ++ [h']; weaks := ws; mem := w |}
  | SMove i =>
      h ← hs !! i;
      let '(h', rest, w) := Strong.move_ctor h (mem m) in
      Some {| strongs := <[i := rest]> hs ++ [h']; weaks := ws; mem := w |}
  | SConvert i =>
      h ← hs !! i;
      let '(h', w) := Strong.convert_copy h (mem m) in
      Some {| strongs := hs ++ [h']; weaks := ws; mem := w |}
  | SDestroy i =>
      h ← hs !! i;
      let '(_, w) := Strong.dtor h (mem m) in
      Some {| strongs := delete i hs; weaks := ws; mem := w |}
  | SReset i j =>
      h ← hs !! i; s ← hs !! j;
      let '(h', w) := Strong.reset h (Strong.get s) true (mem m) in
      Some {| strongs := <[i := h']> hs; weaks := ws; mem := w |}
  | SClear i =>
      h ← hs !! i;
      let '(h', w) := Strong.reset h nullptr true (mem m) in
      Some {| strongs := <[i := h']> hs; weaks := ws; mem := w |}
  | SAssign i j =>
      h ← hs !! i; s ← hs !! j;
      let '(h', w) := Strong.assign h s (mem m) in
      Some {| strongs := <[i := h']> hs; weaks := ws; mem := w |}
  | SMoveAssign i j =>
      s ← hs !! j;
      let '(other, rest, w1) := Strong.move_ctor s (mem m) in
      let hs1 := <[j := rest]> hs in
      h ← hs1 !! i;
      let '(h', w2) := Strong.assign_value h other w1 in
      Some {| strongs := <[i := h']> hs1; weaks := ws; mem := w2 |}
  | SSwap i j =>
      h ← hs !! i; s ← hs !! j;
      let '(h', s') := Strong.swap h s in
      Some {| strongs := <[j := s']> (<[i := h']> hs); weaks := ws;
              mem := mem m |}
  | SUpcast C i =>
      h ← hs !! i;
      let '(h', w) := Strong.up_pointer_cast C h (mem m) in
      Some {| strongs := hs ++ [h']; weaks := ws; mem := w |}
  | SDowncast C i =>
      h ← hs !! i;
      let '(h', w) := Strong.down_pointer_cast C h (mem m) in
      Some {| strongs := hs ++ [h']; weaks := ws; mem := w |}
  | WDefault =>
      Some {| strongs := hs; weaks := ws ++ [Weak.null]; mem := mem m |}
  | WFrom i =>
      h ← hs !! i;
      let '(k', w) := Weak.ctor (Strong.get h) true (mem m) in
      Some {| strongs := hs; weaks := ws ++ [k']; mem := w |}
  | WCopy k =>
      x ← ws !! k;
      let '(x', w) := Weak.copy_ctor x (mem m) in
      Some {| strongs := hs; weaks := ws ++ [x']; mem := w |}
  | WMove k =>
      x ← ws !! k;
      let '(x', rest, w) := Weak.move_ctor x (mem m) in
      Some {| strongs := hs; weaks := <[k := rest]> ws ++ [x']; mem := w |}
  | WDestroy k =>
      x ← ws !! k;
      let '(_, w) := Weak.dtor x (mem m) in
      Some {| strongs := hs; weaks := delete k ws; mem := w |}
  | WReset k l =>
      x ← ws !! k; y ← ws !! l;
      let '(x', w) := Weak.reset x (Weak.get y) true (mem m) in
      Some {| strongs := hs; weaks := <[k := x']> ws; mem := w |}
  | WClear k =>
      x ← ws !! k;
      let '(x', w) := Weak.reset x nullptr true (mem m) in
      Some {| strongs := hs; weaks := <[k := x']> ws; mem := w |}
  | WAssign k l =>
      x ← ws !! k; y ← ws !! l;
      let '(x', w) := Weak.assign x y (mem m) in
      Some {| strongs := hs; weaks := <[k := x']> ws; mem := w |}
  | WMoveAssign k l =>
      y ← ws !! l;
      let '(other, rest, w1) := Weak.move_ctor y (mem m) in
      let ws1 := <[l := rest]> ws in
      x ← ws1 !! k;
      let '(x', w2) := Weak.assign_value x other w1 in
      Some {| strongs := hs; weaks := <[k := x']> ws1; mem := w2 |}
  | WSwap k l =>
      x ← ws !! k; y ← ws !! l;
      let '(x', y') := Weak.swap x y in
      Some {| strongs := hs; weaks := <[l := y']> (<[k := x']> ws);
              mem := mem m |}
  | WLock k =>
      x ← ws !! k;
      let '(h', w) := Weak.lock x (mem m) in
      Some {| strongs := hs ++ [h']; weaks := ws; mem := w |}
  end.

Fixpoint exec (ops : list op) (m : machine) : option machine :=
  match ops with
  | [] => Some m
  | o :: ops' =>
      match step o m with
      | Some m' => exec ops' m'
      | None => None
      end
  end.

(** 1 when the pointer is the address, 0 otherwise. *)
Definition points_to (p : addr) (q : pointer) : Z :=
  if bool_decide (q = Some p) then 1 else 0.

(** How many of the pointers are the address. *)
Definition owners (p : addr) (qs : list pointer) : Z :=
  foldr (fun q n => points_to p q + n) 0 qs.

(** How many strong, and how many weak, handles are on an address. *)
Definition strong_owners (p : addr) (hs : list Strong.intrusive_ptr) : Z :=
  owners p (Strong.ptr_ <$> hs).

Definition weak_owners (p : addr) (ws : list Weak.weak_intrusive_ptr) : Z :=
  owners p (Weak.ptr_ <$> ws).

(** An object is in step with [s] strong and [k] weak handles on it: its
    counts are these numbers, its finalizer has run once if no strong
    handle is on it and not at all otherwise, and its storage has been
    reclaimed at most once and not while any handle is on it. *)
Definition in_step (s k : Z) (o : counted) : Prop :=
  strong_count o = s /\ weak_count o = k /\ 0 <= s /\ 0 <= k /\
  finalized o = (if s =? 0 then 1%nat else 0%nat) /\
  (reclaimed o <= 1)%nat /\
  (0 < s + k -> reclaimed o = 0%nat).

(** Every object of a heap is in step with the given numbers of handles. *)
Definition balanced (os ow : addr -> Z) (h : gmap addr counted) : Prop :=
  forall p o, h !! p = Some o -> in_step (os p) (ow p) o.

(** Every object is in step with the handles of the state. *)
Definition consistent (m : machine) : Prop :=
  balanced (fun p => strong_owners p (strongs m))
           (fun p => weak_owners p (weaks m)) (heap (mem m)).

(** The state a factory leaves: one strong handle on one fresh object. *)
Definition factory_state (p : addr) (cs : list class_id) : machine :=
  {| strongs := [ {| Strong.ptr_ := Some p |} ]; weaks := [];
     mem := {| heap := {[ p := fresh cs ]}; calls := [] |} |}.

End Program.

(** A sample program on the factory's object: a copy of the first handle,
    two weak handles, then the first strong handle is destroyed. *)
Definition sample_program : list Program.op :=
  [Program.SCopy 0; Program.WFrom 0; Program.WCopy 0; Program.SDestroy 0].

(** The same, followed by the destruction of the last strong handle. *)
Definition sample_program_to_the_end : list Program.op :=
  sample_program ++ [Program.SDestroy 0].

Definition sample_start : Program.machine :=
  Program.factory_state the_object [derived_class; base_class].

(** ** Handle operations that call no primitive

    These hold for every managed type: the resulting world is the one the
    operation started in, whatever the primitives do. *)

Section Frame.
Context {W : Type} `{ManagedType W}.

Lemma strong_set_ptr_null (add_ref : bool) (w : W) :
  Strong.set_ptr nullptr add_ref w = (Strong.null, w).
Proof. reflexivity. Qed.

Lemma strong_set_ptr_adopt (raw_ptr : pointer) (w : W) :
  Strong.set_ptr raw_ptr false w = ({| Strong.ptr_ := raw_ptr |}, w).
Proof. by destruct raw_ptr. Qed.

Lemma strong_detach_spec (this : Strong.intrusive_ptr) (w : W) :
  Strong.detach this w = ((Strong.ptr_ this, Strong.null), w).
Proof. by destruct this as [[p|]]. Qed.

Lemma strong_move_ctor_spec (other : Strong.intrusive_ptr) (w : W) :
  Strong.move_ctor other w =
  (({| Strong.ptr_ := Strong.ptr_ other |}, Strong.null), w).
Proof.
  unfold Strong.move_ctor, bind. by rewrite strong_detach_spec.
Qed.

Lemma strong_dtor_null (w : W) : Strong.dtor Strong.null w = (tt, w).
Proof. reflexivity. Qed.

Lemma strong_reset_null (this : Strong.intrusive_ptr) (new_value : pointer)
    (add_ref : bool) (w : W) :
  Strong.ptr_ this = nullptr ->
  Strong.reset this new_value add_ref w = Strong.set_ptr new_value add_ref w.
Proof.
  intros Hnull. unfold Strong.reset, bind. rewrite Hnull.
  by destruct (Strong.set_ptr new_value add_ref w).
Qed.

Lemma weak_set_ptr_null (add_ref : bool) (w : W) :
  Weak.set_ptr nullptr add_ref w = (Weak.null, w).
Proof. reflexivity. Qed.

Lemma weak_detach_spec (this : Weak.weak_intrusive_ptr) (w : W) :
  Weak.detach this w = ((Weak.ptr_ this, Weak.null), w).
Proof. by destruct this as [[p|]]. Qed.

Lemma weak_reset_null (this : Weak.weak_intrusive_ptr) (new_value : pointer)
    (add_ref : bool) (w : W) :
  Weak.ptr_ this = nullptr ->
  Weak.reset this new_value add_ref w = Weak.set_ptr new_value add_ref w.
Proof.
  intros Hnull. unfold Weak.reset, bind. rewrite Hnull.
  by destruct (Weak.set_ptr new_value add_ref w).
Qed.

(** [lock()] is the upgrade primitive and nothing else: the handle it
    returns is built without a further call. *)
Lemma weak_lock_unfold (this : Weak.weak_intrusive_ptr) (p : addr) (w : W) :
  Weak.ptr_ this = Some p ->
  Weak.lock this w =
  let (upgraded, w') := intrusive_ptr_upgrade_weak p w in
  (if upgraded then {| Strong.ptr_ := Some p |} else Strong.null, w').
Proof.
  intros Hp. unfold Weak.lock, bind. rewrite Hp.
  by destruct (intrusive_ptr_upgrade_weak p w) as [[] w'].
Qed.

Lemma weak_get_locked_unfold (this : Weak.weak_intrusive_ptr) (p : addr)
    (w : W) :
  Weak.ptr_ this = Some p ->
  Weak.get_locked this w =
  let (upgraded, w') := intrusive_ptr_upgrade_weak p w in
  (if upgraded then Some p else nullptr, w').
Proof.
  intros Hp. unfold Weak.get_locked, bind. rewrite Hp.
  by destruct (intrusive_ptr_upgrade_weak p w) as [[] w'].
Qed.

(** [h = s] and [h.reset(s.get(), true)] are the same computation. *)
Lemma strong_assign_is_reset (this s : Strong.intrusive_ptr) (w : W) :
  Strong.assign this s w = Strong.reset this (Strong.get s) true w.
Proof.
  unfold Strong.assign, Strong.copy_ctor, Strong.reset, bind.
  destruct (Strong.set_ptr (Strong.get s) true w) as [other w1] eqn:Hset.
  assert (Hother : other = {| Strong.ptr_ := Strong.get s |}).
  { unfold Strong.set_ptr, bind, ret in Hset.
    destruct (Strong.get s) as [q|]; [|congruence].
    destruct (intrusive_ptr_add_ref q w). congruence. }
  subst other. unfold Strong.assign_value, Strong.swap, Strong.dtor, bind.
  simpl. by destruct (Strong.ptr_ this).
Qed.
End Frame.

(** ** Facts about the modelled primitives *)

Lemma primitive_run (c : call) (f : counted -> counted) (p : addr)
    (w : world) :
  primitive c f p w =
  (tt, {| heap := alter f p (heap w); calls := calls w ++ [c] |}).
Proof. reflexivity. Qed.

Lemma try_upgrade_alive (p : addr) (o : counted) (w : world) :
  heap w !! p = Some o -> 0 < strong_count o ->
  try_upgrade_weak p w =
  (true, {| heap := alter inc_strong p (heap w);
            calls := calls w ++ [TryUpgrade p] |}).
Proof.
  intros Hp Hpos. unfold try_upgrade_weak. rewrite Hp.
  by rewrite (proj2 (Z.ltb_lt _ _) Hpos).
Qed.

Lemma try_upgrade_dead (p : addr) (o : counted) (w : world) :
  heap w !! p = Some o -> strong_count o <= 0 ->
  try_upgrade_weak p w =
  (false, {| heap := heap w; calls := calls w ++ [TryUpgrade p] |}).
Proof.
  intros Hp Hle. unfold try_upgrade_weak. rewrite Hp.
  by rewrite (proj2 (Z.ltb_ge _ _) Hle).
Qed.

(** Two updates of one object that undo each other leave the heap as it
    was. *)
Lemma alter_undo (f g : counted -> counted) (p : addr) (o : counted)
    (h : gmap addr counted) :
  h !! p = Some o -> g (f o) = o -> alter g p (alter f p h) = h.
Proof.
  intros Hp Hgf. apply map_eq. intros q.
  destruct (decide (p = q)) as [<-|Hne].
  - rewrite !lookup_alter_eq, Hp. simpl. by rewrite Hgf.
  - by rewrite !lookup_alter_ne.
Qed.

Lemma dec_inc_strong (o : counted) :
  0 < strong_count o -> dec_strong (inc_strong o) = o.
Proof.
  intros Hpos. destruct o as [s k f r cs]. unfold dec_strong, inc_strong.
  simpl in *. replace (s + 1 - 1) with s by lia.
  destruct (Z.eqb_spec s 0); [lia | done].
Qed.

Lemma strong_at_alter (f : counted -> counted) (p : addr)
    (h : gmap addr counted) (cs : list call) :
  strong_at p {| heap := alter f p h; calls := cs |} =
  (strong_count ∘ f) <$> h !! p.
Proof.
  unfold strong_at. simpl. rewrite lookup_alter_eq. by destruct (h !! p).
Qed.

(** ** The claims *)

(** C5.  An object created with [strong_count = 1] and owned by [A]: the
    copy [B] makes the strong count 2, the weak handle [W] makes the weak
    count 1, destroying [A] leaves strong count 1 with the object alive,
    destroying [B] brings it to 0 and runs the finalizer once, [W.lock()]
    returns null and changes nothing, and destroying [W] brings the weak
    count to 0 and reclaims the storage once.  The primitives are called in
    exactly this order. *)
Theorem lifecycle_counts (p : addr) (cs : list class_id) (w : world) :
  heap w !! p = Some (fresh cs) ->
  fst (lifecycle p w) =
    ([ (Some 1, Some 0, Some 0%nat, Some 0%nat);
       (Some 2, Some 0, Some 0%nat, Some 0%nat);
       (Some 2, Some 1, Some 0%nat, Some 0%nat);
       (Some 1, Some 1, Some 0%nat, Some 0%nat);
       (Some 0, Some 1, Some 1%nat, Some 0%nat);
       (Some 0, Some 1, Some 1%nat, Some 0%nat);
       (Some 0, Some 0, Some 1%nat, Some 1%nat) ], nullptr) /\
  calls (snd (lifecycle p w)) =
    calls w ++ [AddStrong p; AddWeak p; ReleaseStrong p; ReleaseStrong p;
                TryUpgrade p; ReleaseWeak p].
Proof.
  intros Hp.
  unfold lifecycle, bind, ret, observe, Strong.copy_ctor, Strong.ctor,
    Strong.dtor, Strong.set_ptr, Strong.get, Weak.ctor, Weak.set_ptr,
    Weak.dtor, Weak.lock, bind, ret,
    strong_at, weak_at, finalized_at, reclaimed_at.
  simpl. unfold add_strong_ref, add_weak_ref, release_strong_ref,
    release_weak_ref, try_upgrade_weak, primitive. simpl.
  repeat (progress (rewrite ?lookup_alter_eq, ?Hp; simpl)).
  split; [reflexivity|]. by rewrite <- !app_assoc.
Qed.

Lemma lifecycle_counts_witness :
  fst (lifecycle the_object small_world) =
    ([ (Some 1, Some 0, Some 0%nat, Some 0%nat);
       (Some 2, Some 0, Some 0%nat, Some 0%nat);
       (Some 2, Some 1, Some 0%nat, Some 0%nat);
       (Some 1, Some 1, Some 0%nat, Some 0%nat);
       (Some 0, Some 1, Some 1%nat, Some 0%nat);
       (Some 0, Some 1, Some 1%nat, Some 0%nat);
       (Some 0, Some 0, Some 1%nat, Some 1%nat) ], nullptr) /\
  calls (snd (lifecycle the_object small_world)) =
    calls small_world ++
    [AddStrong the_object; AddWeak the_object; ReleaseStrong the_object;
     ReleaseStrong the_object; TryUpgrade the_object;
     ReleaseWeak the_object].
Proof.
  apply (lifecycle_counts the_object [derived_class; base_class] small_world).
  reflexivity.
Defined.

(** C3.  On a non-null strong handle, [detach()] returns the stored
    pointer and leaves the handle null without calling a primitive, and a
    handle built over that pointer with [add_ref = false] is the original
    handle again, in the world the detach started in: no count of any
    object has changed, whatever the managed type. *)
Theorem detach_adopt_roundtrip {W : Type} `{ManagedType W}
    (this : Strong.intrusive_ptr) (p : addr) (w : W) :
  Strong.ptr_ this = Some p ->
  Strong.detach this w = ((Some p, Strong.null), w) /\
  Strong.ctor (Some p) false w = (this, w) /\
  (let* r := Strong.detach this in Strong.ctor (fst r) false) w = (this, w).
Proof.
  intros Hp. destruct this as [q]. simpl in Hp. subst q. by repeat split.
Qed.

Lemma detach_adopt_roundtrip_witness :
  Strong.detach owner small_world =
    ((Some the_object, Strong.null), small_world) /\
  Strong.ctor (Some the_object) false small_world = (owner, small_world) /\
  (let* r := Strong.detach owner in Strong.ctor (fst r) false) small_world =
    (owner, small_world).
Proof.
  apply (detach_adopt_roundtrip owner the_object small_world). reflexivity.
Defined.

(** C7.  Downcasting a strong handle whose target is not an instance of
    the requested class returns a null handle as an ordinary result, in
    the world the cast started in: no primitive is called and no count
    changes.  The cast is a [const] member, so the original handle is the
    value it was. *)
Theorem failed_downcast_is_null {W : Type} `{ManagedType W} (C : class_id)
    (this : Strong.intrusive_ptr) (p : addr) (w : W) :
  Strong.ptr_ this = Some p ->
  instance_of C p w = false ->
  Strong.down_pointer_cast C this w = (Strong.null, w).
Proof.
  intros Hp Hno. unfold Strong.down_pointer_cast, dynamic_cast, bind.
  by rewrite Hp, Hno.
Qed.

Lemma failed_downcast_is_null_witness :
  Strong.down_pointer_cast other_class owner small_world =
    (Strong.null, small_world).
Proof.
  apply (failed_downcast_is_null other_class owner the_object small_world);
    reflexivity.
Defined.

(** C8.  Move construction hands the stored pointer to the new handle and
    leaves the source null, in an unchanged world (no primitive call);
    destroying the moved-from handle changes nothing; destroying the new
    handle makes the one release call there is, on a non-null pointer. *)
Theorem move_transfers_without_counting (other : Strong.intrusive_ptr)
    (w : world) :
  Strong.move_ctor other w =
    (({| Strong.ptr_ := Strong.ptr_ other |}, Strong.null), w) /\
  Strong.dtor Strong.null w = (tt, w) /\
  Strong.dtor {| Strong.ptr_ := Strong.ptr_ other |} w =
    (tt, match Strong.ptr_ other with
         | Some p => {| heap := alter dec_strong p (heap w);
                        calls := calls w ++ [ReleaseStrong p] |}
         | None => w
         end).
Proof.
  split; [apply strong_move_ctor_spec|]. split; [reflexivity|].
  unfold Strong.dtor. simpl. by destruct (Strong.ptr_ other).
Qed.

(** C10.  On null handles every operation but dereference is total and
    calls no primitive: destroying, copying, moving, detaching, building
    or resetting from a null pointer, assigning, casting, locking, testing
    and comparing all leave the world as it is, whatever the managed
    type. *)
Theorem null_handles_are_inert {W : Type} `{ManagedType W} (w : W) :
  (Strong.dtor Strong.null w = (tt, w) /\
   Strong.copy_ctor Strong.null w = (Strong.null, w) /\
   Strong.move_ctor Strong.null w = ((Strong.null, Strong.null), w) /\
   Strong.detach Strong.null w = ((nullptr, Strong.null), w) /\
   Strong.release Strong.null w = ((nullptr, Strong.null), w) /\
   (forall add_ref, Strong.ctor nullptr add_ref w = (Strong.null, w)) /\
   (forall add_ref,
      Strong.reset Strong.null nullptr add_ref w = (Strong.null, w)) /\
   (forall new_value add_ref,
      Strong.reset Strong.null new_value add_ref w =
      Strong.ctor new_value add_ref w) /\
   Strong.assign_raw Strong.null nullptr w = (Strong.null, w) /\
   Strong.assign Strong.null Strong.null w = (Strong.null, w) /\
   (forall C, Strong.up_pointer_cast C Strong.null w = (Strong.null, w)) /\
   (forall C, Strong.down_pointer_cast C Strong.null w = (Strong.null, w)) /\
   Strong.operator_bool Strong.null = false /\
   Strong.eq_null Strong.null = true /\
   Strong.ne_null Strong.null = false /\
   Strong.eq_handle Strong.null Strong.null = true /\
   Strong.eq_raw Strong.null nullptr = true) /\
  (Weak.dtor Weak.null w = (tt, w) /\
   Weak.copy_ctor Weak.null w = (Weak.null, w) /\
   Weak.move_ctor Weak.null w = ((Weak.null, Weak.null), w) /\
   Weak.detach Weak.null w = ((nullptr, Weak.null), w) /\
   Weak.release Weak.null w = ((nullptr, Weak.null), w) /\
   (forall add_ref, Weak.ctor nullptr add_ref w = (Weak.null, w)) /\
   (forall add_ref, Weak.reset Weak.null nullptr add_ref w = (Weak.null, w)) /\
   (forall new_value add_ref,
      Weak.reset Weak.null new_value add_ref w =
      Weak.ctor new_value add_ref w) /\
   Weak.assign_raw Weak.null nullptr w = (Weak.null, w) /\
   Weak.assign_value Weak.null Weak.null w = (Weak.null, w) /\
   Weak.lock Weak.null w = (Strong.null, w) /\
   Weak.get_locked Weak.null w = (nullptr, w) /\
   Weak.operator_bool Weak.null = false /\
   Weak.operator_not Weak.null = true /\
   Weak.eq_handle Weak.null Weak.null = true).
Proof.
  repeat split; intros;
    try apply (strong_reset_null Strong.null);
    try apply (weak_reset_null Weak.null); reflexivity.
Qed.

(** What [reset] and assignment call, in order: the acquisition of the
    new target, then the release of the old one. *)
Lemma strong_reset_run (this : Strong.intrusive_ptr) (new_value : pointer)
    (add_ref : bool) (w : world) :
  Strong.reset this new_value add_ref w =
  (let (this', w1) := Strong.set_ptr new_value add_ref w in
   (this', snd (Strong.dtor this w1))).
Proof.
  unfold Strong.reset, Strong.dtor, bind.
  destruct (Strong.set_ptr new_value add_ref w) as [this' w1].
  by destruct (Strong.ptr_ this).
Qed.

Lemma strong_set_ptr_run (raw_ptr : pointer) (add_ref : bool) (w : world) :
  Strong.set_ptr raw_ptr add_ref w =
  ({| Strong.ptr_ := raw_ptr |},
   match raw_ptr with
   | Some q =>
       if add_ref
       then {| heap := alter inc_strong q (heap w);
               calls := calls w ++ [AddStrong q] |}
       else w
   | None => w
   end).
Proof. by destruct raw_ptr as [q|], add_ref. Qed.

Lemma strong_dtor_run (this : Strong.intrusive_ptr) (w : world) :
  Strong.dtor this w =
  (tt, match Strong.ptr_ this with
       | Some p => {| heap := alter dec_strong p (heap w);
                      calls := calls w ++ [ReleaseStrong p] |}
       | None => w
       end).
Proof. unfold Strong.dtor. by destruct (Strong.ptr_ this). Qed.

Lemma strong_reset_calls (this : Strong.intrusive_ptr) (new_value : pointer)
    (add_ref : bool) (w : world) :
  calls (snd (Strong.reset this new_value add_ref w)) =
  calls w ++
  match new_value with
  | Some q => if add_ref then [AddStrong q] else []
  | None => []
  end ++
  match Strong.ptr_ this with
  | Some p => [ReleaseStrong p]
  | None => []
  end.
Proof.
  rewrite strong_reset_run, strong_set_ptr_run, strong_dtor_run.
  destruct new_value as [q|], add_ref, (Strong.ptr_ this) as [p|]; simpl;
    by rewrite <- ?app_assoc, ?app_nil_r.
Qed.

Lemma strong_reset_self (this : Strong.intrusive_ptr) (p : addr)
    (o : counted) (w : world) :
  Strong.ptr_ this = Some p -> heap w !! p = Some o -> 0 < strong_count o ->
  Strong.reset this (Some p) true w =
  (this, {| heap := heap w;
            calls := calls w ++ [AddStrong p; ReleaseStrong p] |}).
Proof.
  intros Hthis Hp Hpos.
  rewrite strong_reset_run, strong_set_ptr_run, strong_dtor_run, Hthis.
  destruct this as [q]. simpl in *. subst q. simpl.
  rewrite (alter_undo inc_strong dec_strong p o) by auto using dec_inc_strong.
  by rewrite <- app_assoc.
Qed.

(** C4.  [reset(new_value, add_ref)] leaves the handle on the new target
    and is the acquisition of the new target (one [add_ref] call when it
    is non-null and [add_ref] is set) followed by the release of the
    previous target, in this order.  Resetting a handle to its own live
    target with [add_ref = true] raises the count to one more than it was
    and brings it back: handle and objects end as they began, and the
    finalizer has not run. *)
Theorem reset_acquires_then_releases (this : Strong.intrusive_ptr)
    (new_value : pointer) (add_ref : bool) (w : world) :
  Strong.ptr_ (fst (Strong.reset this new_value add_ref w)) = new_value /\
  snd (Strong.reset this new_value add_ref w) =
    snd (Strong.dtor this (snd (Strong.set_ptr new_value add_ref w))) /\
  calls (snd (Strong.reset this new_value add_ref w)) =
    calls w ++
    match new_value with
    | Some q => if add_ref then [AddStrong q] else []
    | None => []
    end ++
    match Strong.ptr_ this with
    | Some p => [ReleaseStrong p]
    | None => []
    end /\
  (forall p o,
     Strong.ptr_ this = Some p -> heap w !! p = Some o ->
     0 < strong_count o ->
     strong_at p (snd (Strong.set_ptr (Some p) true w)) =
       Some (strong_count o + 1) /\
     Strong.reset this (Some p) true w =
       (this, {| heap := heap w;
                 calls := calls w ++ [AddStrong p; ReleaseStrong p] |})).
Proof.
  split; [|split; [|split]].
  - rewrite strong_reset_run, strong_set_ptr_run. reflexivity.
  - rewrite strong_reset_run.
    by destruct (Strong.set_ptr new_value add_ref w).
  - apply strong_reset_calls.
  - intros p o Hthis Hp Hpos. split.
    + rewrite strong_set_ptr_run. simpl. rewrite strong_at_alter, Hp.
      reflexivity.
    + by apply (strong_reset_self this p o).
Qed.

Lemma reset_acquires_then_releases_witness :
  strong_at the_object
    (snd (Strong.set_ptr (Some the_object) true small_world)) = Some 2 /\
  Strong.reset owner (Some the_object) true small_world =
    (owner, {| heap := heap small_world;
               calls := [AddStrong the_object; ReleaseStrong the_object] |}).
Proof.
  apply (proj2 (proj2 (proj2
    (reset_acquires_then_releases owner (Some the_object) true small_world)))
    the_object (fresh [derived_class; base_class]));
    [reflexivity | reflexivity | simpl; lia].
Defined.

(** C9.  The copy-and-swap assignment [h = s] is [h.reset(s.get(), true)]:
    same resulting handle, same world, hence the same calls in the same
    order, the acquisition of the target of [s] before the release of the
    old target of [h].  This covers [s] being [h] itself; then, on a live
    target, the count is one more than before once the parameter exists
    and back to what it was at the end, and nothing else has changed. *)
Theorem assign_refines_reset (this s : Strong.intrusive_ptr) (w : world) :
  Strong.assign this s w = Strong.reset this (Strong.get s) true w /\
  Strong.ptr_ (fst (Strong.assign this s w)) = Strong.ptr_ s /\
  calls (snd (Strong.assign this s w)) =
    calls w ++
    match Strong.ptr_ s with Some q => [AddStrong q] | None => [] end ++
    match Strong.ptr_ this with Some p => [ReleaseStrong p] | None => [] end /\
  (forall p o,
     Strong.ptr_ this = Some p -> heap w !! p = Some o ->
     0 < strong_count o ->
     strong_at p (snd (Strong.copy_ctor this w)) = Some (strong_count o + 1) /\
     Strong.assign this this w =
       (this, {| heap := heap w;
                 calls := calls w ++ [AddStrong p; ReleaseStrong p] |})).
Proof.
  split; [apply strong_assign_is_reset|].
  rewrite strong_assign_is_reset. split; [|split].
  - rewrite strong_reset_run, strong_set_ptr_run. reflexivity.
  - apply strong_reset_calls.
  - intros p o Hthis Hp Hpos. rewrite strong_assign_is_reset.
    unfold Strong.copy_ctor, Strong.get. rewrite Hthis. split.
    + rewrite strong_set_ptr_run. simpl. rewrite strong_at_alter, Hp.
      reflexivity.
    + by apply (strong_reset_self this p o).
Qed.

Lemma assign_refines_reset_witness :
  strong_at the_object (snd (Strong.copy_ctor owner small_world)) = Some 2 /\
  Strong.assign owner owner small_world =
    (owner, {| heap := heap small_world;
               calls := [AddStrong the_object; ReleaseStrong the_object] |}).
Proof.
  apply (proj2 (proj2 (proj2 (assign_refines_reset owner owner small_world)))
    the_object (fresh [derived_class; base_class]));
    [reflexivity | reflexivity | simpl; lia].
Defined.

(** C2.  [lock()] on a null weak handle returns a null strong handle at
    once, without a call.  On a non-null one it calls the upgrade
    primitive and nothing else: when the strong count is already zero the
    primitive fails and the result is null, with every count as it was;
    when the object is alive the result holds the same pointer and the
    strong count has grown by the one increment of the upgrade itself, the
    handle being built with [add_ref = false]. *)
Theorem lock_upgrades_or_returns_null (this : Weak.weak_intrusive_ptr)
    (w : world) :
  (Weak.ptr_ this = nullptr -> Weak.lock this w = (Strong.null, w)) /\
  (forall p,
     Weak.ptr_ this = Some p ->
     Weak.lock this w =
     let (upgraded, w') := try_upgrade_weak p w in
     (if upgraded then {| Strong.ptr_ := Some p |} else Strong.null, w')) /\
  (forall p o,
     Weak.ptr_ this = Some p -> heap w !! p = Some o ->
     strong_count o <= 0 ->
     Weak.lock this w =
     (Strong.null,
      {| heap := heap w; calls := calls w ++ [TryUpgrade p] |})) /\
  (forall p o,
     Weak.ptr_ this = Some p -> heap w !! p = Some o ->
     0 < strong_count o ->
     Weak.lock this w =
     ({| Strong.ptr_ := Some p |},
      {| heap := alter inc_strong p (heap w);
         calls := calls w ++ [TryUpgrade p] |}) /\
     strong_at p (snd (Weak.lock this w)) = Some (strong_count o + 1)).
Proof.
  split; [|split; [|split]].
  - intros Hnull. unfold Weak.lock. by rewrite Hnull.
  - intros p Hp. by rewrite (weak_lock_unfold this p).
  - intros p o Hp Ho Hdead. rewrite (weak_lock_unfold this p) by done.
    change (intrusive_ptr_upgrade_weak p w) with (try_upgrade_weak p w).
    by rewrite (try_upgrade_dead p o).
  - intros p o Hp Ho Halive. rewrite (weak_lock_unfold this p) by done.
    change (intrusive_ptr_upgrade_weak p w) with (try_upgrade_weak p w).
    rewrite (try_upgrade_alive p o) by done. split; [done|].
    simpl. by rewrite strong_at_alter, Ho.
Qed.

Lemma lock_upgrades_or_returns_null_witness :
  Weak.lock Weak.null small_world = (Strong.null, small_world) /\
  Weak.lock observer finalized_world =
    (Strong.null,
     {| heap := heap finalized_world; calls := [TryUpgrade the_object] |}) /\
  strong_at the_object (snd (Weak.lock observer small_world)) = Some 2.
Proof.
  split; [|split].
  - apply (proj1 (lock_upgrades_or_returns_null Weak.null small_world)).
    reflexivity.
  - apply (proj1 (proj2 (proj2
      (lock_upgrades_or_returns_null observer finalized_world)))
      the_object
      {| strong_count := 0; weak_count := 1; finalized := 1%nat;
         reclaimed := 0%nat; classes := [derived_class; base_class] |});
      [reflexivity | reflexivity | simpl; lia].
  - apply (proj2 (proj2 (proj2
      (lock_upgrades_or_returns_null observer small_world)))
      the_object (fresh [derived_class; base_class]));
      [reflexivity | reflexivity | simpl; lia].
Defined.

(** C6, as the code has it.  Upcasting a non-null strong handle never
    fails and returns a handle on the same pointer; the returned handle is
    built with the constructor's default [add_ref = true], so the cast
    makes one [add_ref] call and the strong count grows by exactly one,
    the reference the new handle owns. *)
Theorem upcast_shares_pointer_and_adds_ref (C : class_id)
    (this : Strong.intrusive_ptr) (p : addr) (w : world) :
  Strong.ptr_ this = Some p ->
  Strong.up_pointer_cast C this w =
    ({| Strong.ptr_ := Some p |},
     {| heap := alter inc_strong p (heap w);
        calls := calls w ++ [AddStrong p] |}) /\
  strong_at p (snd (Strong.up_pointer_cast C this w)) =
    (fun n => n + 1) <$> strong_at p w.
Proof.
  intros Hp. unfold Strong.up_pointer_cast, Strong.ctor. rewrite Hp.
  unfold static_cast. rewrite strong_set_ptr_run. split; [done|].
  simpl. rewrite strong_at_alter. unfold strong_at.
  by destruct (heap w !! p).
Qed.

Lemma upcast_shares_pointer_and_adds_ref_witness :
  Strong.up_pointer_cast base_class owner small_world =
    ({| Strong.ptr_ := Some the_object |},
     {| heap := alter inc_strong the_object (heap small_world);
        calls := calls small_world ++ [AddStrong the_object] |}) /\
  strong_at the_object
    (snd (Strong.up_pointer_cast base_class owner small_world)) =
    (fun n => n + 1) <$> strong_at the_object small_world.
Proof.
  apply (upcast_shares_pointer_and_adds_ref base_class owner the_object
           small_world).
  reflexivity.
Defined.

(** C6, as stated, fails: upcasting the one handle of a fresh object to
    its base class returns a handle on the same object and leaves the
    strong count at 2, not at 1. *)
Lemma upcast_changes_strong_count :
  Strong.ptr_ owner = Some the_object /\
  Strong.ptr_ (fst (Strong.up_pointer_cast base_class owner small_world)) =
    Some the_object /\
  strong_at the_object small_world = Some 1 /\
  calls (snd (Strong.up_pointer_cast base_class owner small_world)) =
    calls small_world ++ [AddStrong the_object] /\
  strong_at the_object
    (snd (Strong.up_pointer_cast base_class owner small_world)) = Some 2 /\
  strong_at the_object
    (snd (Strong.up_pointer_cast base_class owner small_world)) <>
  strong_at the_object small_world.
Proof. repeat split. by vm_compute. Qed.

(** ** The race between [lock()] and the last strong release *)

(** Run alone, the steps of the locking thread are [lock()]. *)
Lemma race_lock_alone {W : Type} `{ManagedType W}
    (wk : Weak.weak_intrusive_ptr) (d : Race.dropper) (w : W) :
  exists schedule,
    Race.exec schedule
      {| Race.lock_thread := Race.LockEntry wk; Race.drop_thread := d;
         Race.shared := w |} =
    Some {| Race.lock_thread := Race.LockReturned (fst (Weak.lock wk w));
            Race.drop_thread := d; Race.shared := snd (Weak.lock wk w) |}.
Proof.
  destruct wk as [[p|]].
  - exists [Race.Locker; Race.Locker; Race.Locker].
    unfold Weak.lock, bind. simpl.
    by destruct (intrusive_ptr_upgrade_weak p w) as [[] w'].
  - by exists [Race.Locker].
Qed.

(** Run alone, the steps of the destroying thread are the destructor. *)
Lemma race_drop_alone {W : Type} `{ManagedType W}
    (l : Race.locker) (b : Strong.intrusive_ptr) (w : W) :
  exists schedule,
    Race.exec schedule
      {| Race.lock_thread := l; Race.drop_thread := Race.DropEntry b;
         Race.shared := w |} =
    Some {| Race.lock_thread := l; Race.drop_thread := Race.DropReturned;
            Race.shared := snd (Strong.dtor b w) |}.
Proof.
  destruct b as [[p|]].
  - exists [Race.Dropper; Race.Dropper]. unfold Strong.dtor. simpl.
    by destruct (intrusive_ptr_release p w).
  - by exists [Race.Dropper].
Qed.

(** A thread that has not returned can always move: the race never
    blocks. *)
Lemma race_progress {W : Type} `{ManagedType W} (c : @Race.config W) :
  Race.finished c = false -> exists t c', Race.step t c = Some c'.
Proof.
  destruct c as [l d w]. unfold Race.finished. simpl. intros Hnot.
  destruct l as [wk|wk p|wk up|r].
  - exists Race.Locker. unfold Race.step. simpl.
    destruct (Weak.ptr_ wk); eauto.
  - exists Race.Locker. unfold Race.step. simpl.
    destruct (intrusive_ptr_upgrade_weak p w). eauto.
  - exists Race.Locker. unfold Race.step. simpl.
    destruct up, (Weak.ptr_ wk); simpl; eauto.
  - destruct d as [b|p|]; [| |done]; exists Race.Dropper;
      unfold Race.step; simpl.
    + destruct (Strong.ptr_ b); eauto.
    + destruct (intrusive_ptr_release p w). eauto.
Qed.

Ltac race_explore H Hfin Hp :=
  simpl in H; rewrite ?lookup_alter_eq, ?Hp in H; simpl in H;
  first
    [ discriminate H
    | match type of H with
      | Race.exec ?s _ = Some _ =>
          destruct s as [|[] s];
          [ simpl in H; injection H as <-; simpl in Hfin;
            first [ discriminate Hfin | idtac ]
          | race_explore H Hfin Hp
          | race_explore H Hfin Hp ]
      end ].

Lemma race_outcomes (p : addr) (k : Z) (f r : nat) (cs : list class_id)
    (w : world) (schedule : list Race.thread) (c : Race.config) :
  heap w !! p =
    Some {| strong_count := 1; weak_count := k; finalized := f;
            reclaimed := r; classes := cs |} ->
  Race.exec schedule
    (Race.start {| Weak.ptr_ := Some p |} {| Strong.ptr_ := Some p |} w) =
    Some c ->
  Race.finished c = true ->
  (Race.lock_result c = Some {| Strong.ptr_ := Some p |} /\
   calls (Race.shared c) = calls w ++ [TryUpgrade p; ReleaseStrong p] /\
   strong_at p (Race.shared c) = Some 1 /\
   finalized_at p (Race.shared c) = Some f /\
   finalized_at p
     (snd (Strong.dtor {| Strong.ptr_ := Some p |} (Race.shared c))) =
     Some (S f)) \/
  (Race.lock_result c = Some Strong.null /\
   calls (Race.shared c) = calls w ++ [ReleaseStrong p; TryUpgrade p] /\
   strong_at p (Race.shared c) = Some 0 /\
   finalized_at p (Race.shared c) = Some (S f)).
Proof.
  intros Hp Hexec Hfin. unfold Race.start in Hexec.
  race_explore Hexec Hfin Hp.
  all: unfold strong_at, finalized_at; simpl;
    repeat (progress (rewrite ?lookup_alter_eq, ?Hp; simpl));
    rewrite <- ?app_assoc; simpl;
    first [ solve [left; repeat split; reflexivity]
          | solve [right; repeat split; reflexivity] ].
Qed.

(** C1.  The weak handle [wk] and the last strong handle [b] are on the
    same object (strong count 1); one thread runs [wk.lock()], another
    destroys [b].  However the steps of the two interleave, once both have
    returned exactly one of two things has happened.  Either the upgrade
    came first: [lock()] returned a handle on the object, the strong count
    is 1 again, the finalizer has not run and runs once, when the new
    handle is destroyed.  Or the release came first: the finalizer has run
    once, on that release, and [lock()] returned null.  Both outcomes
    occur under some schedule, and no schedule gets stuck before both
    threads have returned. *)
Theorem upgrade_race_has_one_outcome (wk : Weak.weak_intrusive_ptr)
    (b : Strong.intrusive_ptr) (p : addr) (o : counted) (w : world) :
  Weak.ptr_ wk = Some p ->
  Strong.ptr_ b = Some p ->
  heap w !! p = Some o ->
  strong_count o = 1 ->
  0 < weak_count o ->
  (forall schedule c,
     Race.exec schedule (Race.start wk b w) = Some c ->
     Race.finished c = true ->
     (Race.lock_result c = Some {| Strong.ptr_ := Some p |} /\
      calls (Race.shared c) = calls w ++ [TryUpgrade p; ReleaseStrong p] /\
      strong_at p (Race.shared c) = Some 1 /\
      finalized_at p (Race.shared c) = Some (finalized o) /\
      finalized_at p
        (snd (Strong.dtor {| Strong.ptr_ := Some p |} (Race.shared c))) =
        Some (S (finalized o))) \/
     (Race.lock_result c = Some Strong.null /\
      calls (Race.shared c) = calls w ++ [ReleaseStrong p; TryUpgrade p] /\
      strong_at p (Race.shared c) = Some 0 /\
      finalized_at p (Race.shared c) = Some (S (finalized o)))) /\
  (exists schedule c,
     Race.exec schedule (Race.start wk b w) = Some c /\
     Race.finished c = true /\
     Race.lock_result c = Some {| Strong.ptr_ := Some p |}) /\
  (exists schedule c,
     Race.exec schedule (Race.start wk b w) = Some c /\
     Race.finished c = true /\
     Race.lock_result c = Some Strong.null) /\
  (forall schedule c,
     Race.exec schedule (Race.start wk b w) = Some c ->
     Race.finished c = false ->
     exists t c', Race.step t c = Some c').
Proof.
  intros Hwk Hb Hp Hone Hweak.
  destruct wk as [q], b as [q'], o as [s k f r cs]. simpl in *.
  subst q q' s. split; [|split; [|split]].
  - intros schedule c. by apply race_outcomes with (k := k) (r := r) (cs := cs).
  - exists [Race.Locker; Race.Locker; Race.Locker; Race.Dropper; Race.Dropper].
    eexists. simpl. rewrite Hp. simpl. by repeat split.
  - exists [Race.Dropper; Race.Dropper; Race.Locker; Race.Locker; Race.Locker].
    eexists. simpl. rewrite lookup_alter_eq, Hp. simpl. by repeat split.
  - intros schedule c _. apply race_progress.
Qed.

Lemma upgrade_race_has_one_outcome_witness :
  (exists schedule c,
     Race.exec schedule (Race.start observer owner watched_world) = Some c /\
     Race.finished c = true /\
     Race.lock_result c = Some {| Strong.ptr_ := Some the_object |}) /\
  (exists schedule c,
     Race.exec schedule (Race.start observer owner watched_world) = Some c /\
     Race.finished c = true /\
     Race.lock_result c = Some Strong.null).
Proof.
  pose proof (upgrade_race_has_one_outcome observer owner the_object watched
                watched_world) as Hrace.
  destruct Hrace as (_ & Hwins & Hloses & _);
    [reflexivity | reflexivity | reflexivity | reflexivity | simpl; lia |].
  exact (conj Hwins Hloses).
Defined.

(** ** Further properties of the handles *)

Section Compositions.
Context {W : Type} `{ManagedType W}.

(** Whatever the primitive does, [set_ptr] stores the pointer it is
    given. *)
Lemma strong_set_ptr_result (raw_ptr : pointer) (add_ref : bool) (w : W) :
  fst (Strong.set_ptr raw_ptr add_ref w) = {| Strong.ptr_ := raw_ptr |}.
Proof.
  unfold Strong.set_ptr, bind, ret. destruct raw_ptr as [q|], add_ref; try done.
  by destruct (intrusive_ptr_add_ref q w).
Qed.

Lemma weak_set_ptr_result (raw_ptr : pointer) (add_ref : bool) (w : W) :
  fst (Weak.set_ptr raw_ptr add_ref w) = {| Weak.ptr_ := raw_ptr |}.
Proof.
  unfold Weak.set_ptr, bind, ret. destruct raw_ptr as [q|], add_ref; try done.
  by destruct (intrusive_ptr_add_weak_ref q w).
Qed.

Lemma strong_convert_value_spec (other : Strong.intrusive_ptr) (w : W) :
  Strong.convert_ctor_value other w = (other, w).
Proof.
  unfold Strong.convert_ctor_value, bind. rewrite strong_detach_spec.
  by destruct other.
Qed.

Lemma weak_convert_value_spec (other : Weak.weak_intrusive_ptr) (w : W) :
  Weak.convert_ctor_value other w = (other, w).
Proof.
  unfold Weak.convert_ctor_value, bind. rewrite weak_detach_spec.
  by destruct other.
Qed.

Lemma weak_move_ctor_spec (other : Weak.weak_intrusive_ptr) (w : W) :
  Weak.move_ctor other w =
  (({| Weak.ptr_ := Weak.ptr_ other |}, Weak.null), w).
Proof. unfold Weak.move_ctor, bind. by rewrite weak_detach_spec. Qed.

Lemma strong_convert_copy_eq (s : Strong.intrusive_ptr) (w : W) :
  Strong.convert_copy s w = Strong.copy_ctor s w.
Proof.
  unfold Strong.convert_copy, bind.
  destruct (Strong.copy_ctor s w) as [other w1].
  apply strong_convert_value_spec.
Qed.

Lemma strong_up_cast_eq (C : class_id) (r : Strong.intrusive_ptr) (w : W) :
  Strong.up_pointer_cast C r w = Strong.copy_ctor r w.
Proof.
  unfold Strong.up_pointer_cast, Strong.copy_ctor, Strong.ctor, Strong.get.
  by destruct (Strong.ptr_ r).
Qed.

Lemma strong_down_cast_eq (C : class_id) (r : Strong.intrusive_ptr) (w : W) :
  Strong.down_pointer_cast C r w =
  match Strong.ptr_ r with
  | Some p =>
      if instance_of C p w then Strong.copy_ctor r w else (Strong.null, w)
  | None => (Strong.null, w)
  end.
Proof.
  unfold Strong.down_pointer_cast, Strong.copy_ctor, Strong.ctor, Strong.get,
    dynamic_cast, bind.
  destruct (Strong.ptr_ r) as [p|]; [|done].
  by destruct (instance_of C p w).
Qed.

Lemma weak_assign_eq (this s : Weak.weak_intrusive_ptr) (w : W) :
  Weak.assign this s w = Weak.reset this (Weak.get s) true w.
Proof.
  unfold Weak.assign, Weak.copy_ctor, Weak.reset, bind.
  pose proof (weak_set_ptr_result (Weak.get s) true w) as Hres.
  destruct (Weak.set_ptr (Weak.get s) true w) as [other w1].
  simpl in Hres. subst other.
  unfold Weak.assign_value, Weak.swap, Weak.dtor, bind. simpl.
  by destruct (Weak.ptr_ this).
Qed.

(** The assignment body: [*this] takes the pointer of the parameter, and
    the parameter's destructor releases what [*this] held. *)
Lemma strong_assign_value_eq (this other : Strong.intrusive_ptr) (w : W) :
  Strong.assign_value this other w =
  ({| Strong.ptr_ := Strong.ptr_ other |}, snd (Strong.dtor this w)).
Proof.
  unfold Strong.assign_value, Strong.swap, Strong.dtor, bind. simpl.
  destruct (Strong.ptr_ this) as [p|]; [|done].
  by destruct (intrusive_ptr_release p w).
Qed.

Lemma weak_assign_value_eq (this other : Weak.weak_intrusive_ptr) (w : W) :
  Weak.assign_value this other w =
  ({| Weak.ptr_ := Weak.ptr_ other |}, snd (Weak.dtor this w)).
Proof.
  unfold Weak.assign_value, Weak.swap, Weak.dtor, bind. simpl.
  destruct (Weak.ptr_ this) as [p|]; [|done].
  by destruct (intrusive_ptr_release_weak p w).
Qed.

(** Converting construction from an lvalue costs what a copy costs, and
    from an rvalue what a move costs: the parameter it empties is
    destroyed without a call. *)
Theorem converting_ctor_is_copy_or_move (s : Strong.intrusive_ptr)
    (x : Weak.weak_intrusive_ptr) (w : W) :
  Strong.convert_copy s w = Strong.copy_ctor s w /\
  Strong.convert_move s w = Strong.move_ctor s w /\
  Weak.convert_copy x w = Weak.copy_ctor x w.
Proof.
  split; [apply strong_convert_copy_eq|split].
  - unfold Strong.convert_move, bind. rewrite strong_move_ctor_spec.
    simpl. rewrite strong_convert_value_spec. by destruct s.
  - unfold Weak.convert_copy, bind.
    destruct (Weak.copy_ctor x w) as [other w1].
    apply weak_convert_value_spec.
Qed.

(** [h = std::move(s)] is [h.reset(s.detach(), false)]: [h] takes over the
    pointer of [s] without an [add_ref], the old target of [h] is
    released, and [s] is left null. *)
Theorem move_assign_is_reset_of_detached (this s : Strong.intrusive_ptr)
    (w : W) :
  Strong.assign_move this s w =
  (let* r := Strong.detach s in
   let* this' := Strong.reset this (fst r) false in
   ret (this', snd r)) w.
Proof.
  unfold Strong.assign_move, bind.
  rewrite strong_move_ctor_spec, strong_detach_spec. simpl.
  unfold Strong.assign_value, Strong.reset, Strong.swap, Strong.dtor, bind.
  rewrite strong_set_ptr_adopt. simpl.
  destruct (Strong.ptr_ this) as [p|]; [|done].
  by destruct (intrusive_ptr_release p w).
Qed.

(** For weak handles, copy assignment [h = s] is [h.reset(s.get(), true)]
    and move assignment [h = std::move(s)] is
    [h.reset(s.detach(), false)]. *)
Theorem weak_assign_is_reset (this s : Weak.weak_intrusive_ptr) (w : W) :
  Weak.assign this s w = Weak.reset this (Weak.get s) true w /\
  Weak.assign_move this s w =
  (let* r := Weak.detach s in
   let* this' := Weak.reset this (fst r) false in
   ret (this', snd r)) w.
Proof.
  split; [apply weak_assign_eq|].
  - unfold Weak.assign_move, bind.
    rewrite weak_move_ctor_spec, weak_detach_spec. simpl.
    unfold Weak.assign_value, Weak.reset, Weak.swap, Weak.dtor, bind.
    assert (Hadopt : Weak.set_ptr (Weak.ptr_ s) false w =
                     ({| Weak.ptr_ := Weak.ptr_ s |}, w))
      by (by destruct (Weak.ptr_ s)).
    rewrite Hadopt. simpl.
    destruct (Weak.ptr_ this) as [p|]; [|done].
    by destruct (intrusive_ptr_release_weak p w).
Qed.

(** [lock()] is [get_locked()] followed by the adoption of the pointer it
    returns: the raw pointer of [get_locked()] carries exactly the
    reference a handle built with [add_ref = false] takes over. *)
Theorem lock_is_get_locked_adopted (this : Weak.weak_intrusive_ptr) (w : W) :
  Weak.lock this w =
  (let* p := Weak.get_locked this in Strong.ctor p false) w.
Proof.
  unfold Weak.lock, Weak.get_locked, bind.
  destruct (Weak.ptr_ this) as [p|]; [|done].
  by destruct (intrusive_ptr_upgrade_weak p w) as [[] w'].
Qed.

(** Both casts are copies when they succeed: the upcast always, the
    downcast when the object is an instance of the class; a downcast that
    fails, or from a null handle, gives null without a call. *)
Theorem casts_are_copies (C : class_id) (r : Strong.intrusive_ptr) (w : W) :
  Strong.static_pointer_cast C r w = Strong.copy_ctor r w /\
  Strong.up_pointer_cast C r w = Strong.copy_ctor r w /\
  Strong.dynamic_pointer_cast C r w = Strong.down_pointer_cast C r w /\
  Strong.down_pointer_cast C r w =
    match Strong.ptr_ r with
    | Some p =>
        if instance_of C p w then Strong.copy_ctor r w else (Strong.null, w)
    | None => (Strong.null, w)
    end.
Proof.
  split; [apply strong_up_cast_eq|]. split; [apply strong_up_cast_eq|].
  split; [done|]. apply strong_down_cast_eq.
Qed.

(** Moving a weak handle, or detaching it and adopting the pointer again,
    calls no primitive: the pointer changes hands in an unchanged world,
    and the emptied handle is destroyed without a call. *)
Theorem weak_transfer_without_counting (this : Weak.weak_intrusive_ptr)
    (w : W) :
  Weak.move_ctor this w =
    (({| Weak.ptr_ := Weak.ptr_ this |}, Weak.null), w) /\
  Weak.detach this w = ((Weak.ptr_ this, Weak.null), w) /\
  (let* r := Weak.detach this in
   run Weak.dtor (snd r) then Weak.ctor (fst r) false) w = (this, w).
Proof.
  split; [apply weak_move_ctor_spec|]. split; [apply weak_detach_spec|].
  unfold bind. rewrite weak_detach_spec. simpl.
  by destruct this as [[p|]].
Qed.
End Compositions.

Lemma ptr_eqb_true (a b : pointer) : ptr_eqb a b = true <-> a = b.
Proof. unfold ptr_eqb. apply bool_decide_eq_true. Qed.

Lemma ptr_eqb_sym (a b : pointer) : ptr_eqb a b = ptr_eqb b a.
Proof. unfold ptr_eqb. apply bool_decide_ext. split; congruence. Qed.

Lemma negb_true_not (c : bool) (P : Prop) :
  (c = true <-> P) -> (negb c = true <-> ~ P).
Proof. destruct c; simpl; intuition congruence. Qed.

(** The equality operators decide the identity of the stored pointers, in
    every spelling: between handles, against a raw pointer on either
    side, and against [nullptr] on either side, where they agree with the
    boolean test. *)
Theorem comparisons_decide_identity (a b : Strong.intrusive_ptr)
    (q : pointer) (x y : Weak.weak_intrusive_ptr) :
  (Strong.eq_handle a b = true <-> a = b) /\
  (Strong.ne_handle a b = true <-> a <> b) /\
  (Strong.eq_raw a q = true <-> Strong.get a = q) /\
  Strong.raw_eq q a = Strong.eq_raw a q /\
  Strong.ne_raw a q = negb (Strong.eq_raw a q) /\
  Strong.raw_ne q a = negb (Strong.eq_raw a q) /\
  Strong.eq_null a = Strong.eq_raw a nullptr /\
  Strong.null_eq a = Strong.eq_raw a nullptr /\
  Strong.ne_null a = negb (Strong.eq_null a) /\
  Strong.null_ne a = negb (Strong.eq_null a) /\
  (Strong.operator_bool a = true <-> a <> Strong.null) /\
  (Weak.eq_handle x y = true <-> x = y) /\
  (Weak.ne_handle x y = true <-> x <> y) /\
  Weak.operator_not x = negb (Weak.operator_bool x) /\
  (Weak.operator_bool x = true <-> x <> Weak.null).
Proof.
  assert (Hs : forall a b, Strong.eq_handle a b = true <-> a = b).
  { intros [pa] [pb]. unfold Strong.eq_handle. rewrite ptr_eqb_true. simpl.
    split; congruence. }
  assert (Hw : forall x y, Weak.eq_handle x y = true <-> x = y).
  { intros [px] [py]. unfold Weak.eq_handle. rewrite ptr_eqb_true. simpl.
    split; congruence. }
  repeat split; try (apply Hs || apply Hw || by apply ptr_eqb_true).
  - by apply negb_true_not.
  - by apply negb_true_not.
  - apply ptr_eqb_sym.
  - unfold Strong.raw_ne, Strong.eq_raw. by rewrite ptr_eqb_sym.
  - unfold Strong.eq_null, Strong.operator_bool, Strong.eq_raw, Strong.get.
    apply negb_involutive.
  - unfold Strong.null_eq, Strong.operator_bool, Strong.eq_raw, Strong.get.
    apply negb_involutive.
  - unfold Strong.ne_null, Strong.eq_null. by rewrite negb_involutive.
  - unfold Strong.null_ne, Strong.eq_null. by rewrite negb_involutive.
  - apply (proj1 (negb_true_not _ _ (Hs a Strong.null))).
  - apply (proj2 (negb_true_not _ _ (Hs a Strong.null))).
  - by apply negb_true_not.
  - by apply negb_true_not.
  - destruct x as [[p|]]; [done|]. discriminate.
  - destruct x as [[p|]]; [done|]. intros Hne. by destruct Hne.
Qed.

(** ** Programs over handles keep counts and handles in step *)

Module ProgramFacts.
Import Program.

Lemma points_to_null (p : addr) : points_to p nullptr = 0.
Proof. reflexivity. Qed.

Lemma points_to_self (p : addr) : points_to p (Some p) = 1.
Proof. unfold points_to. by rewrite bool_decide_eq_true_2. Qed.

Lemma points_to_other (p q : addr) : p <> q -> points_to p (Some q) = 0.
Proof.
  intros Hne. unfold points_to. rewrite bool_decide_eq_false_2; [done|].
  congruence.
Qed.

Lemma points_to_range (p : addr) (q : pointer) : 0 <= points_to p q <= 1.
Proof. unfold points_to. case_bool_decide; lia. Qed.

Lemma owners_nonneg (p : addr) (qs : list pointer) : 0 <= owners p qs.
Proof.
  induction qs as [|q qs IH]; simpl; [lia|].
  pose proof (points_to_range p q). lia.
Qed.

Lemma owners_app (p : addr) (qs rs : list pointer) :
  owners p (qs ++ rs) = owners p qs + owners p rs.
Proof. induction qs as [|q qs IH]; simpl; lia. Qed.

Lemma owners_insert (p : addr) (qs : list pointer) (i : nat) (q q' : pointer) :
  qs !! i = Some q ->
  owners p (<[i := q']> qs) = owners p qs - points_to p q + points_to p q'.
Proof.
  revert i. induction qs as [|r qs IH]; intros [|i] Hi; simplify_eq/=.
  - lia.
  - rewrite (IH i Hi). lia.
Qed.

Lemma owners_delete (p : addr) (qs : list pointer) (i : nat) (q : pointer) :
  qs !! i = Some q ->
  owners p (delete i qs) = owners p qs - points_to p q.
Proof.
  revert i. induction qs as [|r qs IH]; intros [|i] Hi; simplify_eq/=.
  - lia.
  - rewrite (IH i Hi). lia.
Qed.

Lemma owners_member (p : addr) (qs : list pointer) (i : nat) :
  qs !! i = Some (Some p) -> 0 < owners p qs.
Proof.
  revert i. induction qs as [|r qs IH]; intros [|i] Hi; simplify_eq/=.
  - rewrite points_to_self. pose proof (owners_nonneg p qs). lia.
  - pose proof (IH i Hi). pose proof (points_to_range p r). lia.
Qed.

Lemma strong_owners_member (p : addr) (hs : list Strong.intrusive_ptr)
    (i : nat) (h : Strong.intrusive_ptr) :
  hs !! i = Some h -> Strong.ptr_ h = Some p -> 0 < strong_owners p hs.
Proof.
  intros Hi Hp. apply (owners_member p _ i).
  by rewrite list_lookup_fmap, Hi, <- Hp.
Qed.

Lemma weak_owners_member (p : addr) (ws : list Weak.weak_intrusive_ptr)
    (k : nat) (x : Weak.weak_intrusive_ptr) :
  ws !! k = Some x -> Weak.ptr_ x = Some p -> 0 < weak_owners p ws.
Proof.
  intros Hk Hp. apply (owners_member p _ k).
  by rewrite list_lookup_fmap, Hk, <- Hp.
Qed.

(** What one primitive does to an object in step. *)
Lemma in_step_inc_strong (s k : Z) (o : counted) :
  in_step s k o -> 0 < s -> in_step (s + 1) k (inc_strong o).
Proof.
  unfold in_step, inc_strong. simpl. intros (Hs & Hk & ? & ? & Hf & ? & Hr) ?.
  rewrite Hf.
  destruct (Z.eqb_spec s 0), (Z.eqb_spec (s + 1) 0); repeat split; lia.
Qed.

Lemma in_step_dec_strong (s k : Z) (o : counted) :
  in_step s k o -> 0 < s -> in_step (s - 1) k (dec_strong o).
Proof.
  unfold in_step, dec_strong. simpl. intros (Hs & Hk & ? & ? & Hf & ? & Hr) ?.
  rewrite Hf, Hs.
  destruct (Z.eqb_spec s 0), (Z.eqb_spec (s - 1) 0); repeat split; lia.
Qed.

Lemma in_step_inc_weak (s k : Z) (o : counted) :
  in_step s k o -> 0 < s + k -> in_step s (k + 1) (inc_weak o).
Proof.
  unfold in_step, inc_weak. simpl. intros (Hs & Hk & ? & ? & Hf & ? & Hr) ?.
  repeat split; try lia; auto.
Qed.

Lemma in_step_dec_weak (s k : Z) (o : counted) :
  in_step s k o -> 0 < k -> in_step s (k - 1) (dec_weak o).
Proof.
  unfold in_step, dec_weak. simpl. intros (Hs & Hk & ? & ? & Hf & ? & Hr) ?.
  rewrite (Hr ltac:(lia)), Hf, Hk.
  destruct (Z.eqb_spec (k - 1) 0), (Z.eqb_spec s 0); simpl;
    repeat split; lia.
Qed.

Lemma balanced_alter (os ow os' ow' : addr -> Z) (f : counted -> counted)
    (q : addr) (h : gmap addr counted) :
  balanced os ow h ->
  (forall o, h !! q = Some o -> in_step (os q) (ow q) o ->
             in_step (os' q) (ow' q) (f o)) ->
  (forall p, p <> q -> os' p = os p /\ ow' p = ow p) ->
  balanced os' ow' (alter f q h).
Proof.
  intros Hbal Hat Hother p o. destruct (decide (q = p)) as [<-|Hne].
  - rewrite lookup_alter_eq. destruct (h !! q) as [o0|] eqn:Hq; [|done].
    simpl. intros [= <-]. apply Hat; [done|]. by apply Hbal.
  - rewrite lookup_alter_ne by done. intros Hp.
    destruct (Hother p) as [-> ->]; [congruence|]. by apply Hbal.
Qed.

Lemma balanced_ext (os ow os' ow' : addr -> Z) (h : gmap addr counted) :
  balanced os ow h ->
  (forall p, os' p = os p) -> (forall p, ow' p = ow p) ->
  balanced os' ow' h.
Proof.
  intros Hbal Hs Hw p o Hp. rewrite Hs, Hw. by apply Hbal.
Qed.

Ltac other_address :=
  intros ? ?; rewrite ?points_to_other by congruence; split; lia.

Lemma balanced_strong_acquire (os ow : addr -> Z) (q : pointer) (w : world) :
  balanced os ow (heap w) ->
  (forall q', q = Some q' -> 0 < os q') ->
  balanced (fun p => os p + points_to p q) ow
           (heap (snd (Strong.set_ptr q true w))).
Proof.
  intros Hbal Hown. rewrite strong_set_ptr_run. destruct q as [q|]; simpl.
  - apply (balanced_alter os ow); [done| |other_address].
    intros o _ Ho. rewrite points_to_self.
    apply in_step_inc_strong; auto.
  - apply (balanced_ext os ow); [done| |done].
    intros p. rewrite points_to_null. lia.
Qed.

Lemma balanced_strong_release (os ow : addr -> Z) (h : Strong.intrusive_ptr)
    (w : world) :
  balanced os ow (heap w) ->
  (forall q', Strong.ptr_ h = Some q' -> 0 < os q') ->
  balanced (fun p => os p - points_to p (Strong.ptr_ h)) ow
           (heap (snd (Strong.dtor h w))).
Proof.
  intros Hbal Hown. rewrite strong_dtor_run.
  destruct (Strong.ptr_ h) as [q|]; simpl.
  - apply (balanced_alter os ow); [done| |other_address].
    intros o _ Ho. rewrite points_to_self.
    apply in_step_dec_strong; auto.
  - apply (balanced_ext os ow); [done| |done].
    intros p. rewrite points_to_null. lia.
Qed.

Lemma weak_set_ptr_run (raw_ptr : pointer) (add_ref : bool) (w : world) :
  Weak.set_ptr raw_ptr add_ref w =
  ({| Weak.ptr_ := raw_ptr |},
   match raw_ptr with
   | Some q =>
       if add_ref
       then {| heap := alter inc_weak q (heap w);
               calls := calls w ++ [AddWeak q] |}
       else w
   | None => w
   end).
Proof. by destruct raw_ptr as [q|], add_ref. Qed.

Lemma weak_dtor_run (this : Weak.weak_intrusive_ptr) (w : world) :
  Weak.dtor this w =
  (tt, match Weak.ptr_ this with
       | Some p => {| heap := alter dec_weak p (heap w);
                      calls := calls w ++ [ReleaseWeak p] |}
       | None => w
       end).
Proof. unfold Weak.dtor. by destruct (Weak.ptr_ this). Qed.

Lemma weak_reset_run (this : Weak.weak_intrusive_ptr) (new_value : pointer)
    (add_ref : bool) (w : world) :
  Weak.reset this new_value add_ref w =
  (let (this', w1) := Weak.set_ptr new_value add_ref w in
   (this', snd (Weak.dtor this w1))).
Proof.
  unfold Weak.reset, Weak.dtor, bind.
  destruct (Weak.set_ptr new_value add_ref w) as [this' w1].
  by destruct (Weak.ptr_ this).
Qed.

Lemma balanced_weak_acquire (os ow : addr -> Z) (q : pointer) (w : world) :
  balanced os ow (heap w) ->
  (forall q', q = Some q' -> 0 < os q' + ow q') ->
  balanced os (fun p => ow p + points_to p q)
           (heap (snd (Weak.set_ptr q true w))).
Proof.
  intros Hbal Hown. rewrite weak_set_ptr_run. destruct q as [q|]; simpl.
  - apply (balanced_alter os ow); [done| |other_address].
    intros o _ Ho. rewrite points_to_self.
    apply in_step_inc_weak; auto.
  - apply (balanced_ext os ow); [done|done|].
    intros p. rewrite points_to_null. lia.
Qed.

Lemma balanced_weak_release (os ow : addr -> Z) (x : Weak.weak_intrusive_ptr)
    (w : world) :
  balanced os ow (heap w) ->
  (forall q', Weak.ptr_ x = Some q' -> 0 < ow q') ->
  balanced os (fun p => ow p - points_to p (Weak.ptr_ x))
           (heap (snd (Weak.dtor x w))).
Proof.
  intros Hbal Hown. rewrite weak_dtor_run.
  destruct (Weak.ptr_ x) as [q|]; simpl.
  - apply (balanced_alter os ow); [done| |other_address].
    intros o _ Ho. rewrite points_to_self.
    apply in_step_dec_weak; auto.
  - apply (balanced_ext os ow); [done|done|].
    intros p. rewrite points_to_null. lia.
Qed.

(** [lock()] either adds a strong handle and the matching count, or adds
    a null handle and nothing. *)
Lemma balanced_lock (os ow : addr -> Z) (x : Weak.weak_intrusive_ptr)
    (w : world) :
  balanced os ow (heap w) ->
  balanced (fun p => os p + points_to p (Strong.ptr_ (fst (Weak.lock x w))))
           ow (heap (snd (Weak.lock x w))).
Proof.
  intros Hbal. destruct (Weak.ptr_ x) as [q|] eqn:Hq.
  - rewrite (weak_lock_unfold x q) by done.
    change (intrusive_ptr_upgrade_weak q w) with (try_upgrade_weak q w).
    unfold try_upgrade_weak. simpl.
    destruct (heap w !! q) as [o|] eqn:Ho.
    + destruct (Z.ltb_spec 0 (strong_count o)) as [Halive|Hdead]; simpl.
      * apply (balanced_alter os ow); [done| |other_address].
        intros o' Ho' Hstep. rewrite points_to_self.
        apply in_step_inc_strong; [done|].
        rewrite Ho in Ho'. injection Ho' as <-.
        destruct Hstep as (Hs & _). lia.
      * apply (balanced_ext os ow); [done| |done].
        intros p. rewrite points_to_null. lia.
    + simpl. apply (balanced_ext os ow); [done| |done].
      intros p. rewrite points_to_null. lia.
  - unfold Weak.lock. rewrite Hq. simpl.
    apply (balanced_ext os ow); [done| |done].
    intros p. rewrite points_to_null. lia.
Qed.
Lemma strong_owners_push (p : addr) (hs : list Strong.intrusive_ptr)
    (h : Strong.intrusive_ptr) :
  strong_owners p (hs ++ [h]) =
  strong_owners p hs + points_to p (Strong.ptr_ h).
Proof.
  unfold strong_owners. rewrite fmap_app, owners_app. simpl. lia.
Qed.

Lemma strong_owners_insert (p : addr) (hs : list Strong.intrusive_ptr)
    (i : nat) (h h' : Strong.intrusive_ptr) :
  hs !! i = Some h ->
  strong_owners p (<[i := h']> hs) =
  strong_owners p hs - points_to p (Strong.ptr_ h)
  + points_to p (Strong.ptr_ h').
Proof.
  intros Hi. unfold strong_owners. rewrite list_fmap_insert.
  apply owners_insert. by rewrite list_lookup_fmap, Hi.
Qed.

Lemma strong_owners_delete (p : addr) (hs : list Strong.intrusive_ptr)
    (i : nat) (h : Strong.intrusive_ptr) :
  hs !! i = Some h ->
  strong_owners p (delete i hs) =
  strong_owners p hs - points_to p (Strong.ptr_ h).
Proof.
  intros Hi. unfold strong_owners. rewrite list_fmap_delete.
  apply owners_delete. by rewrite list_lookup_fmap, Hi.
Qed.

Lemma weak_owners_push (p : addr) (ws : list Weak.weak_intrusive_ptr)
    (x : Weak.weak_intrusive_ptr) :
  weak_owners p (ws ++ [x]) = weak_owners p ws + points_to p (Weak.ptr_ x).
Proof.
  unfold weak_owners. rewrite fmap_app, owners_app. simpl. lia.
Qed.

Lemma weak_owners_insert (p : addr) (ws : list Weak.weak_intrusive_ptr)
    (k : nat) (x x' : Weak.weak_intrusive_ptr) :
  ws !! k = Some x ->
  weak_owners p (<[k := x']> ws) =
  weak_owners p ws - points_to p (Weak.ptr_ x) + points_to p (Weak.ptr_ x').
Proof.
  intros Hk. unfold weak_owners. rewrite list_fmap_insert.
  apply owners_insert. by rewrite list_lookup_fmap, Hk.
Qed.

Lemma weak_owners_delete (p : addr) (ws : list Weak.weak_intrusive_ptr)
    (k : nat) (x : Weak.weak_intrusive_ptr) :
  ws !! k = Some x ->
  weak_owners p (delete k ws) = weak_owners p ws - points_to p (Weak.ptr_ x).
Proof.
  intros Hk. unfold weak_owners. rewrite list_fmap_delete.
  apply owners_delete. by rewrite list_lookup_fmap, Hk.
Qed.

(** After [<[i := y]>] the slot [j] that held [y] still holds [y]. *)
Lemma lookup_insert_same {A : Type} (l : list A) (i j : nat) (x y : A) :
  l !! i = Some x -> l !! j = Some y -> <[i := y]> l !! j = Some y.
Proof.
  intros Hi Hj. destruct (decide (i = j)) as [<-|Hne].
  - apply list_lookup_insert_eq. by apply lookup_lt_Some in Hi.
  - by rewrite list_lookup_insert_ne.
Qed.

(** A new strong handle on the target of a handle that exists. *)
Lemma consistent_strong_copy (m : machine) (i : nat)
    (h : Strong.intrusive_ptr) :
  consistent m -> strongs m !! i = Some h ->
  consistent {| strongs := strongs m ++ [fst (Strong.copy_ctor h (mem m))];
                weaks := weaks m;
                mem := snd (Strong.copy_ctor h (mem m)) |}.
Proof.
  intros Hc Hi. unfold consistent, Strong.copy_ctor. simpl.
  eapply balanced_ext;
    [eapply balanced_strong_acquire; [exact Hc|] | |done].
  - intros q Hq. by apply (strong_owners_member q _ i h).
  - intros p. rewrite strong_owners_push, strong_set_ptr_result. reflexivity.
Qed.

(** A strong handle replaced by a handle on the target of another. *)
Lemma consistent_strong_reset (m : machine) (i : nat)
    (h : Strong.intrusive_ptr) (q : pointer) :
  consistent m -> strongs m !! i = Some h ->
  (forall q', q = Some q' -> 0 < strong_owners q' (strongs m)) ->
  consistent
    {| strongs := <[i := fst (Strong.reset h q true (mem m))]> (strongs m);
       weaks := weaks m;
       mem := snd (Strong.reset h q true (mem m)) |}.
Proof.
  intros Hc Hi Hq. unfold consistent. simpl. rewrite strong_reset_run.
  pose proof (strong_set_ptr_result q true (mem m)) as Hres.
  destruct (Strong.set_ptr q true (mem m)) as [h' w1] eqn:Hset.
  simpl in *. subst h'.
  assert (Hw1 : w1 = snd (Strong.set_ptr q true (mem m))) by by rewrite Hset.
  eapply balanced_ext;
    [eapply (balanced_strong_release _ _ h); [subst w1;
       eapply balanced_strong_acquire; [exact Hc|exact Hq] |] | |done].
  - intros q' Hq'. simpl.
    pose proof (strong_owners_member q' _ i h Hi Hq').
    pose proof (points_to_range q' q). lia.
  - intros p. simpl. rewrite (strong_owners_insert p _ i h) by done.
    simpl. lia.
Qed.

(** A strong handle destroyed. *)
Lemma consistent_strong_destroy (m : machine) (i : nat)
    (h : Strong.intrusive_ptr) :
  consistent m -> strongs m !! i = Some h ->
  consistent {| strongs := delete i (strongs m); weaks := weaks m;
                mem := snd (Strong.dtor h (mem m)) |}.
Proof.
  intros Hc Hi. unfold consistent. simpl.
  eapply balanced_ext;
    [eapply (balanced_strong_release _ _ h); [exact Hc|] | |done].
  - intros q Hq. by apply (strong_owners_member q _ i h).
  - intros p. simpl. by rewrite (strong_owners_delete p _ i h).
Qed.
(** A new weak handle on the target of a handle that exists. *)
Lemma consistent_weak_new (m : machine) (q : pointer) :
  consistent m ->
  (forall q', q = Some q' ->
              0 < strong_owners q' (strongs m) + weak_owners q' (weaks m)) ->
  consistent {| strongs := strongs m;
                weaks := weaks m ++ [fst (Weak.set_ptr q true (mem m))];
                mem := snd (Weak.set_ptr q true (mem m)) |}.
Proof.
  intros Hc Hq. unfold consistent. simpl.
  eapply balanced_ext;
    [eapply balanced_weak_acquire; [exact Hc|exact Hq] |done|].
  intros p. rewrite weak_owners_push, weak_set_ptr_result. reflexivity.
Qed.

(** A weak handle replaced by a handle on the target of another. *)
Lemma consistent_weak_reset (m : machine) (k : nat)
    (x : Weak.weak_intrusive_ptr) (q : pointer) :
  consistent m -> weaks m !! k = Some x ->
  (forall q', q = Some q' -> 0 < weak_owners q' (weaks m)) ->
  consistent
    {| strongs := strongs m;
       weaks := <[k := fst (Weak.reset x q true (mem m))]> (weaks m);
       mem := snd (Weak.reset x q true (mem m)) |}.
Proof.
  intros Hc Hk Hq. unfold consistent. simpl. rewrite weak_reset_run.
  pose proof (weak_set_ptr_result q true (mem m)) as Hres.
  destruct (Weak.set_ptr q true (mem m)) as [x' w1] eqn:Hset.
  simpl in *. subst x'.
  assert (Hw1 : w1 = snd (Weak.set_ptr q true (mem m))) by by rewrite Hset.
  eapply balanced_ext;
    [eapply (balanced_weak_release _ _ x); [subst w1;
       eapply balanced_weak_acquire; [exact Hc|] |] |done|].
  - intros q' Hq'. specialize (Hq q' Hq').
    pose proof (owners_nonneg q' (Strong.ptr_ <$> strongs m)).
    unfold strong_owners. lia.
  - intros q' Hq'. simpl.
    pose proof (weak_owners_member q' _ k x Hk Hq').
    pose proof (points_to_range q' q). lia.
  - intros p. simpl. rewrite (weak_owners_insert p _ k x) by done.
    simpl. lia.
Qed.

(** A weak handle destroyed. *)
Lemma consistent_weak_destroy (m : machine) (k : nat)
    (x : Weak.weak_intrusive_ptr) :
  consistent m -> weaks m !! k = Some x ->
  consistent {| strongs := strongs m; weaks := delete k (weaks m);
                mem := snd (Weak.dtor x (mem m)) |}.
Proof.
  intros Hc Hk. unfold consistent. simpl.
  eapply balanced_ext;
    [eapply (balanced_weak_release _ _ x); [exact Hc|] |done|].
  - intros q Hq. by apply (weak_owners_member q _ k x).
  - intros p. simpl. by rewrite (weak_owners_delete p _ k x).
Qed.

(** Handles rearranged without a call. *)
Lemma consistent_rearranged (m : machine) (hs : list Strong.intrusive_ptr)
    (ws : list Weak.weak_intrusive_ptr) :
  consistent m ->
  (forall p, strong_owners p hs = strong_owners p (strongs m)) ->
  (forall p, weak_owners p ws = weak_owners p (weaks m)) ->
  consistent {| strongs := hs; weaks := ws; mem := mem m |}.
Proof. intros Hc Hs Hw. unfold consistent. simpl. by eapply balanced_ext. Qed.

(** [h = std::move(s)] on the handles at [i] and [j]. *)
Lemma consistent_strong_move_assign (m : machine) (i j : nat)
    (h s : Strong.intrusive_ptr) :
  consistent m -> strongs m !! j = Some s ->
  <[j := Strong.null]> (strongs m) !! i = Some h ->
  consistent
    {| strongs := <[i := {| Strong.ptr_ := Strong.ptr_ s |}]>
                    (<[j := Strong.null]> (strongs m));
       weaks := weaks m;
       mem := snd (Strong.dtor h (mem m)) |}.
Proof.
  intros Hc Hj Hi. unfold consistent. simpl.
  eapply balanced_ext;
    [eapply (balanced_strong_release _ _ h); [exact Hc|] | |done].
  - intros q Hq. destruct (decide (j = i)) as [->|Hne].
    + rewrite list_lookup_insert_eq in Hi by (by apply lookup_lt_Some in Hj).
      injection Hi as <-. discriminate.
    + rewrite list_lookup_insert_ne in Hi by done.
      by apply (strong_owners_member q _ i h).
  - intros p. simpl. rewrite (strong_owners_insert p _ i h) by done.
    rewrite (strong_owners_insert p _ j s) by done. simpl.
    rewrite points_to_null. lia.
Qed.

Lemma consistent_weak_move_assign (m : machine) (k l : nat)
    (x y : Weak.weak_intrusive_ptr) :
  consistent m -> weaks m !! l = Some y ->
  <[l := Weak.null]> (weaks m) !! k = Some x ->
  consistent
    {| strongs := strongs m;
       weaks := <[k := {| Weak.ptr_ := Weak.ptr_ y |}]>
                  (<[l := Weak.null]> (weaks m));
       mem := snd (Weak.dtor x (mem m)) |}.
Proof.
  intros Hc Hl Hk. unfold consistent. simpl.
  eapply balanced_ext;
    [eapply (balanced_weak_release _ _ x); [exact Hc|] |done|].
  - intros q Hq. destruct (decide (l = k)) as [->|Hne].
    + rewrite list_lookup_insert_eq in Hk by (by apply lookup_lt_Some in Hl).
      injection Hk as <-. discriminate.
    + rewrite list_lookup_insert_ne in Hk by done.
      by apply (weak_owners_member q _ k x).
  - intros p. simpl. rewrite (weak_owners_insert p _ k x) by done.
    rewrite (weak_owners_insert p _ l y) by done. simpl.
    rewrite points_to_null. lia.
Qed.

(** [lock()] on a weak handle, its result kept. *)
Lemma consistent_lock (m : machine) (x : Weak.weak_intrusive_ptr) :
  consistent m ->
  consistent {| strongs := strongs m ++ [fst (Weak.lock x (mem m))];
                weaks := weaks m;
                mem := snd (Weak.lock x (mem m)) |}.
Proof.
  intros Hc. unfold consistent. simpl.
  eapply balanced_ext; [eapply balanced_lock; exact Hc| |done].
  intros p. simpl. by rewrite strong_owners_push.
Qed.
Ltac open_slot H :=
  match type of H with
  | context [?l !! ?i] =>
      let h := fresh "h" in
      let Hslot := fresh "Hslot" in
      destruct (l !! i) as [h|] eqn:Hslot; [simpl in H|discriminate H]
  end.

Ltac close_with lemma :=
  unfold Weak.ctor, Weak.copy_ctor in *;
  match goal with
  | Hstep : (let '(_, _) := ?call in _) = Some _ |- _ =>
      let E := fresh "E" in
      pose proof lemma as Hnew;
      destruct call as [? ?] eqn:E; simpl in Hnew;
      injection Hstep as <-; exact Hnew
  end.

(** Every operation keeps the state consistent. *)
Lemma step_consistent (o : op) (m m' : machine) :
  consistent m -> step o m = Some m' -> consistent m'.
Proof.
  intros Hc Hstep. destruct o; simpl in Hstep.
  - (* default construction *)
    injection Hstep as <-. apply consistent_rearranged; [done| |done].
    intros p. rewrite strong_owners_push. simpl. rewrite points_to_null. lia.
  - (* copy construction *)
    open_slot Hstep. close_with (consistent_strong_copy m i h Hc Hslot).
  - (* move construction *)
    open_slot Hstep. rewrite strong_move_ctor_spec in Hstep.
    injection Hstep as <-. apply consistent_rearranged; [done| |done].
    intros p. rewrite strong_owners_push.
    rewrite (strong_owners_insert p _ i h) by done. simpl.
    rewrite points_to_null. lia.
  - (* converting construction *)
    open_slot Hstep. rewrite strong_convert_copy_eq in Hstep.
    close_with (consistent_strong_copy m i h Hc Hslot).
  - (* destruction *)
    open_slot Hstep. close_with (consistent_strong_destroy m i h Hc Hslot).
  - (* reset to the target of another handle *)
    open_slot Hstep. open_slot Hstep.
    assert (Hown : forall q', Strong.get h0 = Some q' ->
                              0 < strong_owners q' (strongs m))
      by (intros q' Hq'; by apply (strong_owners_member q' _ j h0)).
    close_with (consistent_strong_reset m i h (Strong.get h0) Hc Hslot Hown).
  - (* reset to null *)
    open_slot Hstep.
    assert (Hown : forall q', nullptr = Some q' ->
                              0 < strong_owners q' (strongs m)) by done.
    close_with (consistent_strong_reset m i h nullptr Hc Hslot Hown).
  - (* copy assignment *)
    open_slot Hstep. open_slot Hstep.
    rewrite strong_assign_is_reset in Hstep.
    assert (Hown : forall q', Strong.get h0 = Some q' ->
                              0 < strong_owners q' (strongs m))
      by (intros q' Hq'; by apply (strong_owners_member q' _ j h0)).
    close_with (consistent_strong_reset m i h (Strong.get h0) Hc Hslot Hown).
  - (* move assignment *)
    open_slot Hstep. rewrite strong_move_ctor_spec in Hstep.
    open_slot Hstep. rewrite strong_assign_value_eq in Hstep.
    injection Hstep as <-.
    by apply (consistent_strong_move_assign m i j h0 h).
  - (* swap *)
    open_slot Hstep. open_slot Hstep. injection Hstep as <-.
    apply consistent_rearranged; [done| |done].
    intros p.
    rewrite (strong_owners_insert p _ j h0)
      by (destruct h0; by apply (lookup_insert_same _ i j h)).
    rewrite (strong_owners_insert p _ i h) by done. simpl. lia.
  - (* upcast *)
    open_slot Hstep. rewrite strong_up_cast_eq in Hstep.
    close_with (consistent_strong_copy m i h Hc Hslot).
  - (* downcast *)
    open_slot Hstep. rewrite strong_down_cast_eq in Hstep.
    destruct (Strong.ptr_ h) as [q|] eqn:Hq;
      [destruct (instance_of C q (mem m))|].
    + close_with (consistent_strong_copy m i h Hc Hslot).
    + injection Hstep as <-. apply consistent_rearranged; [done| |done].
      intros p. rewrite strong_owners_push. simpl.
      rewrite points_to_null. lia.
    + injection Hstep as <-. apply consistent_rearranged; [done| |done].
      intros p. rewrite strong_owners_push. simpl.
      rewrite points_to_null. lia.
  - (* default construction, weak *)
    injection Hstep as <-. apply consistent_rearranged; [done|done|].
    intros p. rewrite weak_owners_push. simpl. rewrite points_to_null. lia.
  - (* weak handle from a strong one *)
    open_slot Hstep.
    assert (Hown : forall q', Strong.get h = Some q' ->
              0 < strong_owners q' (strongs m) + weak_owners q' (weaks m)).
    { intros q' Hq'. pose proof (strong_owners_member q' _ i h Hslot Hq').
      pose proof (owners_nonneg q' (Weak.ptr_ <$> weaks m)).
      unfold weak_owners. lia. }
    close_with (consistent_weak_new m (Strong.get h) Hc Hown).
  - (* copy construction, weak *)
    open_slot Hstep.
    assert (Hown : forall q', Weak.get h = Some q' ->
              0 < strong_owners q' (strongs m) + weak_owners q' (weaks m)).
    { intros q' Hq'. pose proof (weak_owners_member q' _ k h Hslot Hq').
      pose proof (owners_nonneg q' (Strong.ptr_ <$> strongs m)).
      unfold strong_owners. lia. }
    close_with (consistent_weak_new m (Weak.get h) Hc Hown).
  - (* move construction, weak *)
    open_slot Hstep. rewrite weak_move_ctor_spec in Hstep.
    injection Hstep as <-. apply consistent_rearranged; [done|done|].
    intros p. rewrite weak_owners_push.
    rewrite (weak_owners_insert p _ k h) by done. simpl.
    rewrite points_to_null. lia.
  - (* destruction, weak *)
    open_slot Hstep. close_with (consistent_weak_destroy m k h Hc Hslot).
  - (* reset to the target of another weak handle *)
    open_slot Hstep. open_slot Hstep.
    assert (Hown : forall q', Weak.get h0 = Some q' ->
                              0 < weak_owners q' (weaks m))
      by (intros q' Hq'; by apply (weak_owners_member q' _ l h0)).
    close_with (consistent_weak_reset m k h (Weak.get h0) Hc Hslot Hown).
  - (* reset to null, weak *)
    open_slot Hstep.
    assert (Hown : forall q', nullptr = Some q' ->
                              0 < weak_owners q' (weaks m)) by done.
    close_with (consistent_weak_reset m k h nullptr Hc Hslot Hown).
  - (* copy assignment, weak *)
    open_slot Hstep. open_slot Hstep. rewrite weak_assign_eq in Hstep.
    assert (Hown : forall q', Weak.get h0 = Some q' ->
                              0 < weak_owners q' (weaks m))
      by (intros q' Hq'; by apply (weak_owners_member q' _ l h0)).
    close_with (consistent_weak_reset m k h (Weak.get h0) Hc Hslot Hown).
  - (* move assignment, weak *)
    open_slot Hstep. rewrite weak_move_ctor_spec in Hstep.
    open_slot Hstep. rewrite weak_assign_value_eq in Hstep.
    injection Hstep as <-.
    by apply (consistent_weak_move_assign m k l h0 h).
  - (* swap, weak *)
    open_slot Hstep. open_slot Hstep. injection Hstep as <-.
    apply consistent_rearranged; [done|done|].
    intros p.
    rewrite (weak_owners_insert p _ l h0)
      by (destruct h0; by apply (lookup_insert_same _ k l h)).
    rewrite (weak_owners_insert p _ k h) by done. simpl. lia.
  - (* lock *)
    open_slot Hstep. close_with (consistent_lock m h Hc).
Qed.

Lemma exec_consistent (ops : list op) (m m' : machine) :
  consistent m -> exec ops m = Some m' -> consistent m'.
Proof.
  revert m. induction ops as [|o ops IH]; intros m Hc Hexec; simpl in Hexec.
  - by injection Hexec as <-.
  - destruct (step o m) as [m1|] eqn:Hstep; [|done].
    apply (IH m1); [|done]. by apply (step_consistent o m).
Qed.

Lemma factory_state_consistent (p : addr) (cs : list class_id) :
  consistent (factory_state p cs).
Proof.
  unfold consistent, factory_state, balanced. simpl. intros q o Hq.
  apply lookup_singleton_Some in Hq as [<- <-].
  unfold strong_owners, weak_owners. simpl. rewrite points_to_self.
  unfold in_step, fresh. simpl. repeat split; lia.
Qed.
End ProgramFacts.

(** Assigning a raw pointer, [h = p], is assigning a temporary handle
    built from it: the same handle and the same world result, for strong
    and for weak handles. *)
Theorem raw_assign_is_assign_of_temporary {W : Type} `{ManagedType W}
    (this : Strong.intrusive_ptr) (x : Weak.weak_intrusive_ptr)
    (p : pointer) (w : W) :
  Strong.assign_raw this p w =
    (let* tmp := Strong.ctor p true in Strong.assign_value this tmp) w /\
  Weak.assign_raw x p w =
    (let* tmp := Weak.ctor p true in Weak.assign_value x tmp) w.
Proof.
  split.
  - unfold Strong.assign_raw, Strong.reset, Strong.ctor, bind.
    pose proof (strong_set_ptr_result p true w) as Hres.
    destruct (Strong.set_ptr p true w) as [tmp w1]. simpl in Hres. subst tmp.
    rewrite strong_assign_value_eq. unfold Strong.dtor. simpl.
    destruct (Strong.ptr_ this) as [q|]; [|done].
    by destruct (intrusive_ptr_release q w1).
  - unfold Weak.assign_raw, Weak.reset, Weak.ctor, bind.
    pose proof (weak_set_ptr_result p true w) as Hres.
    destruct (Weak.set_ptr p true w) as [tmp w1]. simpl in Hres. subst tmp.
    rewrite weak_assign_value_eq. unfold Weak.dtor. simpl.
    destruct (Weak.ptr_ x) as [q|]; [|done].
    by destruct (intrusive_ptr_release_weak q w1).
Qed.

Lemma dec_inc_weak (o : counted) :
  0 < weak_count o -> dec_weak (inc_weak o) = o.
Proof.
  intros Hpos. destruct o as [s k f r cs]. unfold dec_weak, inc_weak.
  simpl in *. replace (k + 1 - 1) with k by lia.
  destruct (Z.eqb_spec k 0); [lia | done].
Qed.

(** A [lock()] whose result is destroyed at once changes no object: on a
    live object the increment of the upgrade and the release of the
    temporary cancel, and otherwise nothing is counted at all. *)
Theorem temporary_lock_changes_nothing (x : Weak.weak_intrusive_ptr)
    (w : world) :
  heap (snd ((let* h := Weak.lock x in Strong.dtor h) w)) = heap w.
Proof.
  unfold bind. destruct (Weak.ptr_ x) as [p|] eqn:Hp.
  - rewrite (weak_lock_unfold x p) by done.
    change (intrusive_ptr_upgrade_weak p w) with (try_upgrade_weak p w).
    destruct (heap w !! p) as [o|] eqn:Ho.
    + destruct (Z.lt_ge_cases 0 (strong_count o)) as [Halive|Hdead].
      * rewrite (try_upgrade_alive p o) by done. rewrite strong_dtor_run.
        simpl. apply (alter_undo inc_strong dec_strong p o); [done|].
        by apply dec_inc_strong.
      * by rewrite (try_upgrade_dead p o).
    + unfold try_upgrade_weak. by rewrite Ho.
  - unfold Weak.lock. by rewrite Hp.
Qed.

(** [reset] of a weak handle acquires the new target, then releases the
    old one; on a handle reset to its own target the two cancel, and the
    storage is not reclaimed in between. *)
Theorem weak_reset_acquires_then_releases (this : Weak.weak_intrusive_ptr)
    (new_value : pointer) (add_ref : bool) (w : world) :
  Weak.ptr_ (fst (Weak.reset this new_value add_ref w)) = new_value /\
  calls (snd (Weak.reset this new_value add_ref w)) =
    calls w ++
    match new_value with
    | Some q => if add_ref then [AddWeak q] else []
    | None => []
    end ++
    match Weak.ptr_ this with
    | Some p => [ReleaseWeak p]
    | None => []
    end /\
  (forall p o,
     Weak.ptr_ this = Some p -> heap w !! p = Some o -> 0 < weak_count o ->
     Weak.reset this (Some p) true w =
       (this, {| heap := heap w;
                 calls := calls w ++ [AddWeak p; ReleaseWeak p] |})).
Proof.
  split; [|split].
  - rewrite ProgramFacts.weak_reset_run, ProgramFacts.weak_set_ptr_run.
    reflexivity.
  - rewrite ProgramFacts.weak_reset_run, ProgramFacts.weak_set_ptr_run,
      ProgramFacts.weak_dtor_run.
    destruct new_value as [q|], add_ref, (Weak.ptr_ this) as [p|]; simpl;
      by rewrite <- ?app_assoc, ?app_nil_r.
  - intros p o Hthis Hp Hpos.
    rewrite ProgramFacts.weak_reset_run, ProgramFacts.weak_set_ptr_run,
      ProgramFacts.weak_dtor_run, Hthis.
    destruct this as [q]. simpl in *. subst q.
    rewrite (alter_undo inc_weak dec_weak p o) by auto using dec_inc_weak.
    by rewrite <- app_assoc.
Qed.

Lemma weak_reset_acquires_then_releases_witness :
  Weak.reset observer (Some the_object) true watched_world =
    (observer, {| heap := heap watched_world;
                  calls := [AddWeak the_object; ReleaseWeak the_object] |}).
Proof.
  apply (proj2 (proj2
    (weak_reset_acquires_then_releases observer (Some the_object) true
       watched_world)) the_object watched);
    [reflexivity | reflexivity | simpl; lia].
Defined.

(** ** What every program over handles keeps *)

(** After any program, every object's strong count is the number of strong
    handles on it and its weak count the number of weak handles on it. *)
Theorem counts_equal_handles (ops : list Program.op)
    (m m' : Program.machine) (p : addr) (o : counted) :
  Program.consistent m ->
  Program.exec ops m = Some m' ->
  heap (Program.mem m') !! p = Some o ->
  strong_count o = Program.strong_owners p (Program.strongs m') /\
  weak_count o = Program.weak_owners p (Program.weaks m').
Proof.
  intros Hc Hexec Hp.
  destruct (ProgramFacts.exec_consistent ops m m' Hc Hexec p o Hp)
    as (Hs & Hk & _).
  by split.
Qed.

(** After any program, a non-null strong handle is on a live object: the
    strong count is positive, the finalizer has not run and the storage
    has not been reclaimed. *)
Theorem strong_handle_sees_live_object (ops : list Program.op)
    (m m' : Program.machine) (i : nat) (h : Strong.intrusive_ptr)
    (p : addr) (o : counted) :
  Program.consistent m ->
  Program.exec ops m = Some m' ->
  Program.strongs m' !! i = Some h ->
  Strong.ptr_ h = Some p ->
  heap (Program.mem m') !! p = Some o ->
  0 < strong_count o /\ finalized o = 0%nat /\ reclaimed o = 0%nat.
Proof.
  intros Hc Hexec Hi Hh Hp.
  destruct (ProgramFacts.exec_consistent ops m m' Hc Hexec p o Hp)
    as (Hs & Hk & _ & Hk0 & Hf & _ & Hr).
  pose proof (ProgramFacts.strong_owners_member p _ i h Hi Hh) as Hown.
  simpl in *. rewrite Hf.
  destruct (Z.eqb_spec (Program.strong_owners p (Program.strongs m')) 0);
    repeat split; lia.
Qed.

(** After any program, the finalizer of an object has run exactly once if
    no strong handle is left on it and not at all otherwise; its storage
    has been reclaimed at most once, and not while a handle of either kind
    is on it. *)
Theorem finalized_exactly_when_unowned (ops : list Program.op)
    (m m' : Program.machine) (p : addr) (o : counted) :
  Program.consistent m ->
  Program.exec ops m = Some m' ->
  heap (Program.mem m') !! p = Some o ->
  finalized o =
    (if Program.strong_owners p (Program.strongs m') =? 0
     then 1%nat else 0%nat) /\
  (reclaimed o <= 1)%nat /\
  (0 < Program.strong_owners p (Program.strongs m')
       + Program.weak_owners p (Program.weaks m') ->
   reclaimed o = 0%nat).
Proof.
  intros Hc Hexec Hp.
  destruct (ProgramFacts.exec_consistent ops m m' Hc Hexec p o Hp)
    as (_ & _ & _ & _ & Hf & Hle & Hr).
  by repeat split.
Qed.

(** After any program, a non-null weak handle is on storage that has not
    been reclaimed, and [lock()] on it returns a handle on the object
    exactly when some strong handle is on the object, null otherwise. *)
Theorem weak_handle_lock_outcome (ops : list Program.op)
    (m m' : Program.machine) (k : nat) (x : Weak.weak_intrusive_ptr)
    (p : addr) (o : counted) :
  Program.consistent m ->
  Program.exec ops m = Some m' ->
  Program.weaks m' !! k = Some x ->
  Weak.ptr_ x = Some p ->
  heap (Program.mem m') !! p = Some o ->
  0 < weak_count o /\ reclaimed o = 0%nat /\
  Strong.ptr_ (fst (Weak.lock x (Program.mem m'))) =
    (if 0 <? Program.strong_owners p (Program.strongs m')
     then Some p else nullptr).
Proof.
  intros Hc Hexec Hk Hx Hp.
  destruct (ProgramFacts.exec_consistent ops m m' Hc Hexec p o Hp)
    as (Hs & Hw & Hs0 & _ & _ & _ & Hr).
  pose proof (ProgramFacts.weak_owners_member p _ k x Hk Hx) as Hown.
  simpl in *. split; [lia|]. split; [apply Hr; lia|].
  rewrite (weak_lock_unfold x p) by done.
  change (intrusive_ptr_upgrade_weak p (Program.mem m'))
    with (try_upgrade_weak p (Program.mem m')).
  unfold try_upgrade_weak. rewrite Hp, Hs. simpl.
  by destruct (0 <? Program.strong_owners p (Program.strongs m')).
Qed.

Lemma counts_equal_handles_witness :
  exists m' o,
    Program.exec sample_program sample_start = Some m' /\
    heap (Program.mem m') !! the_object = Some o /\
    strong_count o = 1 /\ weak_count o = 2 /\
    strong_count o = Program.strong_owners the_object (Program.strongs m') /\
    weak_count o = Program.weak_owners the_object (Program.weaks m').
Proof.
  eexists _, _. split; [reflexivity|]. split; [reflexivity|].
  split; [reflexivity|]. split; [reflexivity|].
  eapply (counts_equal_handles sample_program sample_start);
    [apply ProgramFacts.factory_state_consistent | reflexivity | reflexivity].
Defined.

Lemma strong_handle_sees_live_object_witness :
  exists m' h o,
    Program.exec sample_program sample_start = Some m' /\
    Program.strongs m' !! 0%nat = Some h /\
    heap (Program.mem m') !! the_object = Some o /\
    0 < strong_count o /\ finalized o = 0%nat /\ reclaimed o = 0%nat.
Proof.
  eexists _, _, _. split; [reflexivity|]. split; [reflexivity|].
  split; [reflexivity|].
  eapply (strong_handle_sees_live_object sample_program sample_start _ 0);
    [apply ProgramFacts.factory_state_consistent
    | reflexivity | reflexivity | reflexivity | reflexivity].
Defined.

Lemma finalized_exactly_when_unowned_witness :
  exists m' o,
    Program.exec sample_program_to_the_end sample_start = Some m' /\
    heap (Program.mem m') !! the_object = Some o /\
    Program.strong_owners the_object (Program.strongs m') = 0 /\
    finalized o = 1%nat /\ reclaimed o = 0%nat.
Proof.
  eexists _, _. split; [reflexivity|]. split; [reflexivity|].
  split; [reflexivity|].
  pose proof (finalized_exactly_when_unowned sample_program_to_the_end
                sample_start _ the_object _
                (ProgramFacts.factory_state_consistent _ _)
                eq_refl eq_refl) as (Hf & _ & Hr).
  split; [exact Hf|]. apply Hr. reflexivity.
Defined.

Lemma weak_handle_lock_outcome_witness :
  exists m' x o,
    Program.exec sample_program_to_the_end sample_start = Some m' /\
    Program.weaks m' !! 0%nat = Some x /\
    heap (Program.mem m') !! the_object = Some o /\
    reclaimed o = 0%nat /\
    Strong.ptr_ (fst (Weak.lock x (Program.mem m'))) = nullptr.
Proof.
  eexists _, _, _. split; [reflexivity|]. split; [reflexivity|].
  split; [reflexivity|].
  pose proof (weak_handle_lock_outcome sample_program_to_the_end
                sample_start _ 0 _ the_object _
                (ProgramFacts.factory_state_consistent _ _)
                eq_refl eq_refl eq_refl eq_refl) as (_ & Hr & Hlock).
  split; [exact Hr|exact Hlock].
Defined.

(** A handle move-assigned to itself, or swapped with itself, is left as
    it was and no primitive is called: the state does not change at all.
    This holds for strong and for weak handles. *)
Theorem self_move_assign_and_self_swap_do_nothing (m : Program.machine)
    (i k : nat) (h : Strong.intrusive_ptr) (x : Weak.weak_intrusive_ptr) :
  Program.strongs m !! i = Some h ->
  Program.weaks m !! k = Some x ->
  Program.step (Program.SMoveAssign i i) m = Some m /\
  Program.step (Program.SSwap i i) m = Some m /\
  Program.step (Program.WMoveAssign k k) m = Some m /\
  Program.step (Program.WSwap k k) m = Some m.
Proof.
  intros Hi Hk. destruct m as [hs ws w]. simpl in *.
  pose proof (lookup_lt_Some _ _ _ Hi) as Hlen.
  pose proof (lookup_lt_Some _ _ _ Hk) as Hlen'.
  rewrite Hi, Hk. simpl.
  rewrite strong_move_ctor_spec, weak_move_ctor_spec. simpl.
  rewrite !list_lookup_insert_eq by done. simpl.
  rewrite !list_insert_insert_eq.
  destruct h as [q], x as [q']. simpl.
  by rewrite !list_insert_id by done.
Qed.

Lemma self_move_assign_and_self_swap_do_nothing_witness :
  exists m,
    Program.exec sample_program sample_start = Some m /\
    Program.step (Program.SMoveAssign 0 0) m = Some m /\
    Program.step (Program.SSwap 0 0) m = Some m /\
    Program.step (Program.WMoveAssign 1 1) m = Some m /\
    Program.step (Program.WSwap 1 1) m = Some m.
Proof.
  eexists. split; [reflexivity|].
  eapply (self_move_assign_and_self_swap_do_nothing _ 0 1); reflexivity.
Defined.
